(** * Parallax license keys: [scripts/generate-license.py]

    A shallow embedding of [generate_license] and [validate_license] together
    with the parts of the Python runtime they call (str methods, the UTF-8
    codec, [hashlib.sha256]), and the properties of the key scheme.

    - Python [str] is a sequence of code points, lone surrogates included.
    - Python [bytes] is a sequence of octets.
    - Python statements that may raise live in the exception monad [M]. *)

From Stdlib Require Import String.
From Stdlib Require Import List Arith NArith Lia Bool Ascii.
From Stdlib Require Decimal.
Import ListNotations.
Local Open Scope N_scope.
Local Open Scope list_scope.

(* ================================================================== *)
(** ** Python values *)

Module Py.

(** A [str] is the list of its code points; [bytes] the list of its octets. *)
Definition str := list N.
Definition bytes := list N.

(** ASCII literals of the source text. *)
Definition lit (s : String.string) : str :=
  map N_of_ascii (String.list_ascii_of_string s).
Arguments lit s%_string.

Definition len (s : str) : nat := List.length s.

Definition str_eqb (a b : str) : bool :=
  if list_eq_dec N.eq_dec a b then true else false.

(** [s[i:j]] for non-negative [i], [j]: out-of-range bounds are clamped. *)
Definition slice (i j : nat) (s : str) : str := firstn (j - i) (skipn i s).

(** [s[i:]]. *)
Definition slice_from (i : nat) (s : str) : str := skipn i s.

(** [s.startswith(p)]. *)
Fixpoint startswith (s p : str) : bool :=
  match p, s with
  | [], _ => true
  | c :: p', d :: s' => (c =? d) && startswith s' p'
  | _ :: _, [] => false
  end.

(** [s.replace(old, new)] for a one-character pattern [old]. *)
Definition replace (old : N) (new : str) (s : str) : str :=
  flat_map (fun c => if c =? old then new else [c]) s.

(** The code points [str.strip()] removes (those with [str.isspace()]). *)
Definition isspace (c : N) : bool :=
  ((0x09 <=? c) && (c <=? 0x0D)) || ((0x1C <=? c) && (c <=? 0x20))
  || (c =? 0x85) || (c =? 0xA0) || (c =? 0x1680)
  || ((0x2000 <=? c) && (c <=? 0x200A))
  || (c =? 0x2028) || (c =? 0x2029) || (c =? 0x202F) || (c =? 0x205F)
  || (c =? 0x3000).

Fixpoint lstrip (s : str) : str :=
  match s with
  | c :: s' => if isspace c then lstrip s' else s
  | [] => []
  end.

Definition rstrip (s : str) : str := rev (lstrip (rev s)).

(** [s.strip()]. *)
Definition strip (s : str) : str := rstrip (lstrip s).

(** [sep.join(parts)]. *)
Fixpoint join (sep : str) (parts : list str) : str :=
  match parts with
  | [] => []
  | [p] => p
  | p :: rest => p ++ sep ++ join sep rest
  end.

(** [range(0, stop, step)] for a positive [step]. *)
Definition range0 (stop step : nat) : list nat :=
  map (fun k => k * step)%nat (seq 0 ((stop + step - 1) / step)%nat).

(** [str.lower()], one code point at a time.  The ASCII letters are exact.
    Outside ASCII the runtime consults the Unicode case tables; the only
    code points there whose lowercase form contains an ASCII character are
    U+0130 (to "i" followed by U+0307) and U+212A (to "k"), both given
    here.  Every other non-ASCII code point lowercases to non-ASCII code
    points and is left as it is: an ASCII result, which is all the tier
    lookup observes, is the same either way. *)
Definition lower_char (c : N) : str :=
  if (0x41 <=? c) && (c <=? 0x5A) then [c + 32]
  else if c =? 0x130 then [0x69; 0x307]
  else if c =? 0x212A then [0x6B]
  else [c].

Definition lower (s : str) : str := flat_map lower_char s.

(** [str.upper()] on ASCII text; the source applies it to hex digests only. *)
Definition upper_char (c : N) : N :=
  if (0x61 <=? c) && (c <=? 0x7A) then c - 32 else c.

Definition upper (s : str) : str := map upper_char s.

(** Decimal text of a non-negative integer, as [%d] prints it. *)
Fixpoint digits_of_uint (u : Decimal.uint) : str :=
  match u with
  | Decimal.Nil => []
  | Decimal.D0 u' => 0x30 :: digits_of_uint u'
  | Decimal.D1 u' => 0x31 :: digits_of_uint u'
  | Decimal.D2 u' => 0x32 :: digits_of_uint u'
  | Decimal.D3 u' => 0x33 :: digits_of_uint u'
  | Decimal.D4 u' => 0x34 :: digits_of_uint u'
  | Decimal.D5 u' => 0x35 :: digits_of_uint u'
  | Decimal.D6 u' => 0x36 :: digits_of_uint u'
  | Decimal.D7 u' => 0x37 :: digits_of_uint u'
  | Decimal.D8 u' => 0x38 :: digits_of_uint u'
  | Decimal.D9 u' => 0x39 :: digits_of_uint u'
  end.

Definition str_of_nat (n : nat) : str := digits_of_uint (Nat.to_uint n).

(** One lowercase hexadecimal digit, for the low four bits of [n]. *)
Definition hexdigit (n : N) : N :=
  let d := N.land n 0xF in
  if d <? 10 then 0x30 + d else 0x61 + (d - 10).

(** [%0<w>x]: the [w] low hex digits of [n], most significant first. *)
Fixpoint hex_fixed (w : nat) (n : N) : str :=
  match w with
  | O => []
  | S w' => hexdigit (N.shiftr n (4 * N.of_nat w')) :: hex_fixed w' n
  end.

(* ------------------------------------------------------------------ *)
(** *** Exceptions *)

Inductive exn : Type :=
| ValueError (msg : str)
| IndexError (msg : str)
| KeyError (key : str)
| UnicodeEncodeError (encoding : str) (object : str) (start stop : nat)
                     (reason : str).

(** [str(e)]. *)
Definition str_of_exn (e : exn) : str :=
  match e with
  | ValueError msg => msg
  | IndexError msg => msg
  | KeyError key => lit "'" ++ key ++ lit "'"
  | UnicodeEncodeError enc obj start stop reason =>
      if (stop =? S start)%nat then
        let bad := nth start obj 0 in
        let esc :=
          if bad <=? 0xFF then lit "\x" ++ hex_fixed 2 bad
          else if bad <=? 0xFFFF then lit "\u" ++ hex_fixed 4 bad
          else lit "\U" ++ hex_fixed 8 bad in
        lit "'" ++ enc ++ lit "' codec can't encode character '" ++ esc
          ++ lit "' in position " ++ str_of_nat start ++ lit ": " ++ reason
      else
        lit "'" ++ enc ++ lit "' codec can't encode characters in position "
          ++ str_of_nat start ++ lit "-" ++ str_of_nat (stop - 1)
          ++ lit ": " ++ reason
  end.

(** A Python computation: it returns a value or raises. *)
Inductive M (A : Type) : Type :=
| Return (a : A)
| Raise (e : exn).
Arguments Return {A} a.
Arguments Raise {A} e.

Definition bind {A B : Type} (m : M A) (k : A -> M B) : M B :=
  match m with
  | Return a => k a
  | Raise e => Raise e
  end.

(** [try: body  except Exception as e: handler(e)]. *)
Definition try_except {A : Type} (body : M A) (handler : exn -> M A) : M A :=
  match body with
  | Return a => Return a
  | Raise e => handler e
  end.

(** [s[i]] for a non-negative index: a one-character [str]. *)
Definition getitem (s : str) (i : nat) : M str :=
  match nth_error s i with
  | Some c => Return [c]
  | None => Raise (IndexError (lit "string index out of range"))
  end.

(** A dict with [str] keys and values, in insertion order. *)
Definition dict := list (str * str).

Fixpoint dict_get (d : dict) (k : str) : option str :=
  match d with
  | [] => None
  | (k', v) :: d' => if str_eqb k k' then Some v else dict_get d' k
  end.

(** [k in d]. *)
Definition dict_contains (d : dict) (k : str) : bool :=
  match dict_get d k with Some _ => true | None => false end.

(** [d[k]]. *)
Definition dict_getitem (d : dict) (k : str) : M str :=
  match dict_get d k with
  | Some v => Return v
  | None => Raise (KeyError k)
  end.

(* ------------------------------------------------------------------ *)
(** *** The UTF-8 codec, [str.encode('utf-8')] *)

Definition is_surrogate (c : N) : bool := (0xD800 <=? c) && (c <=? 0xDFFF).

Definition utf8_char (c : N) : bytes :=
  if c <? 0x80 then [c]
  else if c <? 0x800 then
    [N.lor 0xC0 (N.shiftr c 6); N.lor 0x80 (N.land c 0x3F)]
  else if c <? 0x10000 then
    [N.lor 0xE0 (N.shiftr c 12); N.lor 0x80 (N.land (N.shiftr c 6) 0x3F);
     N.lor 0x80 (N.land c 0x3F)]
  else
    [N.lor 0xF0 (N.shiftr c 18); N.lor 0x80 (N.land (N.shiftr c 12) 0x3F);
     N.lor 0x80 (N.land (N.shiftr c 6) 0x3F); N.lor 0x80 (N.land c 0x3F)].

(** Index of the first surrogate of [s], counted from [i]. *)
Fixpoint find_surrogate (i : nat) (s : str) : option nat :=
  match s with
  | [] => None
  | c :: s' => if is_surrogate c then Some i else find_surrogate (S i) s'
  end.

(** Length of the run of surrogates at the head of [s]. *)
Fixpoint surrogate_run (s : str) : nat :=
  match s with
  | c :: s' => if is_surrogate c then S (surrogate_run s') else O
  | [] => O
  end.

(** The strict error handler: the first run of surrogates is reported. *)
Definition encode_utf8 (s : str) : M bytes :=
  match find_surrogate 0 s with
  | None => Return (flat_map utf8_char s)
  | Some i =>
      Raise (UnicodeEncodeError (lit "utf-8") s i
               (i + surrogate_run (skipn i s))%nat (lit "surrogates not allowed"))
  end.

End Py.

(* ================================================================== *)
(** ** [hashlib.sha256] (FIPS 180-4) *)

Module SHA256.

Definition mask32 : N := 0xFFFFFFFF.
Definition add32 (x y : N) : N := N.land (x + y) mask32.
Definition not32 (x : N) : N := N.lxor x mask32.
Definition rotr (n x : N) : N :=
  N.lor (N.shiftr x n) (N.land (N.shiftl x (32 - n)) mask32).

Definition Ch (x y z : N) : N := N.lxor (N.land x y) (N.land (not32 x) z).
Definition Maj (x y z : N) : N :=
  N.lxor (N.lxor (N.land x y) (N.land x z)) (N.land y z).
Definition bsig0 (x : N) : N := N.lxor (N.lxor (rotr 2 x) (rotr 13 x)) (rotr 22 x).
Definition bsig1 (x : N) : N := N.lxor (N.lxor (rotr 6 x) (rotr 11 x)) (rotr 25 x).
Definition ssig0 (x : N) : N := N.lxor (N.lxor (rotr 7 x) (rotr 18 x)) (N.shiftr x 3).
Definition ssig1 (x : N) : N := N.lxor (N.lxor (rotr 17 x) (rotr 19 x)) (N.shiftr x 10).

Definition K256 : list N :=
  [0x428A2F98; 0x71374491; 0xB5C0FBCF; 0xE9B5DBA5;
   0x3956C25B; 0x59F111F1; 0x923F82A4; 0xAB1C5ED5;
   0xD807AA98; 0x12835B01; 0x243185BE; 0x550C7DC3;
   0x72BE5D74; 0x80DEB1FE; 0x9BDC06A7; 0xC19BF174;
   0xE49B69C1; 0xEFBE4786; 0x0FC19DC6; 0x240CA1CC;
   0x2DE92C6F; 0x4A7484AA; 0x5CB0A9DC; 0x76F988DA;
   0x983E5152; 0xA831C66D; 0xB00327C8; 0xBF597FC7;
   0xC6E00BF3; 0xD5A79147; 0x06CA6351; 0x14292967;
   0x27B70A85; 0x2E1B2138; 0x4D2C6DFC; 0x53380D13;
   0x650A7354; 0x766A0ABB; 0x81C2C92E; 0x92722C85;
   0xA2BFE8A1; 0xA81A664B; 0xC24B8B70; 0xC76C51A3;
   0xD192E819; 0xD6990624; 0xF40E3585; 0x106AA070;
   0x19A4C116; 0x1E376C08; 0x2748774C; 0x34B0BCB5;
   0x391C0CB3; 0x4ED8AA4A; 0x5B9CCA4F; 0x682E6FF3;
   0x748F82EE; 0x78A5636F; 0x84C87814; 0x8CC70208;
   0x90BEFFFA; 0xA4506CEB; 0xBEF9A3F7; 0xC67178F2].

(** The eight chaining words. *)
Record state : Type := State {
  ha : N; hb : N; hc : N; hd : N; he : N; hf : N; hg : N; hh : N
}.

Definition init : state :=
  State 0x6A09E667 0xBB67AE85 0x3C6EF372 0xA54FF53A
        0x510E527F 0x9B05688C 0x1F83D9AB 0x5BE0CD19.

(** Big-endian octets of a word of [n] octets. *)
Fixpoint be_bytes (n : nat) (x : N) : list N :=
  match n with
  | O => []
  | S n' => N.land (N.shiftr x (8 * N.of_nat n')) 0xFF :: be_bytes n' x
  end.

(** Padding: 0x80, zeros up to 56 modulo 64, then the bit length on 64 bits. *)
Definition pad (msg : list N) : list N :=
  let l := List.length msg in
  let zeros := ((64 - (l + 9) mod 64) mod 64)%nat in
  msg ++ [0x80] ++ repeat 0 zeros ++ be_bytes 8 (8 * N.of_nat l).

(** Big-endian 32-bit words of an octet string. *)
Fixpoint words (bs : list N) : list N :=
  match bs with
  | b0 :: b1 :: b2 :: b3 :: rest =>
      N.lor (N.shiftl b0 24) (N.lor (N.shiftl b1 16) (N.lor (N.shiftl b2 8) b3))
      :: words rest
  | _ => []
  end.

(** The message schedule, from a window of the sixteen latest words. *)
Fixpoint schedule (n : nat) (win : list N) : list N :=
  match n, win with
  | S n', w0 :: rest =>
      let w16 :=
        add32 (add32 (add32 (ssig1 (nth 14 win 0)) (nth 9 win 0))
                     (ssig0 (nth 1 win 0))) w0 in
      w0 :: schedule n' (rest ++ [w16])
  | _, _ => []
  end.

Definition round (s : state) (kw : N * N) : state :=
  let (k, w) := kw in
  let t1 := add32 (add32 (add32 (add32 (hh s) (bsig1 (he s)))
                                (Ch (he s) (hf s) (hg s))) k) w in
  let t2 := add32 (bsig0 (ha s)) (Maj (ha s) (hb s) (hc s)) in
  State (add32 t1 t2) (ha s) (hb s) (hc s) (add32 (hd s) t1)
        (he s) (hf s) (hg s).

Definition compress (s : state) (block : list N) : state :=
  let r := fold_left round (combine K256 (schedule 64 block)) s in
  State (add32 (ha s) (ha r)) (add32 (hb s) (hb r))
        (add32 (hc s) (hc r)) (add32 (hd s) (hd r))
        (add32 (he s) (he r)) (add32 (hf s) (hf r))
        (add32 (hg s) (hg r)) (add32 (hh s) (hh r)).

(** The padded message sixteen words at a time. *)
Fixpoint blocks (n : nat) (ws : list N) : list (list N) :=
  match n with
  | O => []
  | S n' => firstn 16 ws :: blocks n' (skipn 16 ws)
  end.

Definition digest_of (s : state) : list N :=
  flat_map (be_bytes 4)
           [ha s; hb s; hc s; hd s; he s; hf s; hg s; hh s].

(** [hashlib.sha256(msg).digest()]. *)
Definition sha256 (msg : list N) : list N :=
  let ws := words (pad msg) in
  digest_of (fold_left compress (blocks (List.length ws / 16)%nat ws) init).

(** [.hexdigest()] of a digest: two lowercase hex digits per octet. *)
Definition hexdigest (d : list N) : Py.str :=
  flat_map (fun b => [Py.hexdigit (N.shiftr b 4); Py.hexdigit b]) d.

End SHA256.

Import Py.


(* ================================================================== *)
(** ** The program *)

(** What [validate_license] returns: a dict with the key ["valid"] and, by
    outcome, either ["tier"], ["expiry"] and ["email"], or ["error"].  A key
    that is absent is [None]. *)
Module Verdict.
Record t : Type := mk {
  valid : bool;
  tier : option str;
  expiry : option str;
  email : option str;
  error : option str
}.
End Verdict.

(** [{"valid": False, "error": msg}] *)
Definition invalid (msg : str) : Verdict.t :=
  Verdict.mk false None None None (Some msg).

Notation "x <- m ;; k" := (bind m (fun x => k))
  (at level 61, m at next level, right associativity).

(** The module constant of the source. *)
Definition SECRET_KEY : str :=
  lit "CHANGE_THIS_TO_RANDOM_64_CHAR_STRING_KEEP_IT_SECRET_AND_SAFE".

Section WithSecret.

(** The functions read the global [SECRET_KEY]; it is a parameter here so
    that a fixture can supply its own. *)
Variable secret : str.

Definition tier_codes : dict :=
  [(lit "pro", lit "P"); (lit "team", lit "T"); (lit "enterprise", lit "E")].

(** [hashlib.sha256(f"{email}|{tier}|{SECRET_KEY}".encode('utf-8'))
      .hexdigest()[:12].upper()] *)
Definition hash_part_of (email tier : str) : M str :=
  hash_input <- encode_utf8 (email ++ lit "|" ++ tier ++ lit "|" ++ secret) ;;
  let hash_digest := SHA256.hexdigest (SHA256.sha256 hash_input) in
  Return (upper (slice 0 12 hash_digest)).

Definition generate_license (email tier : str) : M str :=
  let tier_lower := lower tier in
  if negb (dict_contains tier_codes tier_lower) then
    Raise (ValueError (lit "Invalid tier: " ++ tier
                       ++ lit ". Must be pro, team, or enterprise"))
  else
    tier_code <- dict_getitem tier_codes tier_lower ;;
    let expiry := lit "LIFE" in
    hash_part <- hash_part_of email tier_lower ;;
    let key_raw := lit "PRLX" ++ tier_code ++ expiry ++ hash_part in
    let segments :=
      map (fun i => slice i (i + 4) key_raw) (range0 (len key_raw) 4) in
    let license_key := join (lit "-") segments in
    Return license_key.

Definition tier_map : dict :=
  [(lit "P", lit "pro"); (lit "T", lit "team"); (lit "E", lit "enterprise")].

(** [license_key.replace("-", "").replace(" ", "").strip()] *)
Definition clean (license_key : str) : str :=
  strip (replace 0x20 [] (replace 0x2D [] license_key)).

(** The body of the [try] block. *)
Definition validate_license_body (license_key email : str) : M Verdict.t :=
  let key_clean := clean license_key in
  if negb (startswith key_clean (lit "PRLX")) then
    Return (invalid (lit "Invalid format: must start with PRLX"))
  else if (len key_clean <? 17)%nat then
    Return (invalid (lit "Invalid format: key too short"))
  else
    tier_code <- getitem key_clean 4 ;;
    let expiry := slice 5 9 key_clean in
    let hash_provided := slice_from 9 key_clean in
    if negb (dict_contains tier_map tier_code) then
      Return (invalid (lit "Invalid tier code"))
    else
      tier <- dict_getitem tier_map tier_code ;;
      hash_expected <- hash_part_of email tier ;;
      if negb (str_eqb hash_provided hash_expected) then
        Return (invalid (lit "Invalid key: hash mismatch"))
      else
        Return (Verdict.mk true (Some tier) (Some expiry) (Some email) None).

Definition validate_license (license_key email : str) : M Verdict.t :=
  try_except (validate_license_body license_key email)
    (fun e => Return (invalid (lit "Validation error: " ++ str_of_exn e))).

End WithSecret.

Arguments hash_part_of secret email tier : simpl never.

(* ================================================================== *)
(** ** The specification's words *)

(** The three tiers, lowercase. *)
Definition tiers : list str := [lit "pro"; lit "team"; lit "enterprise"].

(** The error of the [raise] in [generate_license]. *)
Definition InvalidTier (tier : str) : exn :=
  ValueError (lit "Invalid tier: " ++ tier
              ++ lit ". Must be pro, team, or enterprise").

(** Successive 4-character chunks; the last one may be shorter. *)
Fixpoint chunks4 (s : str) : list str :=
  match s with
  | a :: b :: c :: d :: rest => [a; b; c; d] :: chunks4 rest
  | [] => []
  | short => [short]
  end.

Definition hyphenate (s : str) : str := join (lit "-") (chunks4 s).

(** Lowercase hex of the SHA-256, uppercased, then cut to 12 characters. *)
Definition digest_part (hash_input : bytes) : str :=
  slice 0 12 (upper (SHA256.hexdigest (SHA256.sha256 hash_input))).

(** A [str] the UTF-8 codec accepts: no surrogate code point. *)
Definition encodable (s : str) : bool := forallb (fun c => negb (is_surrogate c)) s.

Definition is_upper_hex (c : N) : bool :=
  ((0x30 <=? c) && (c <=? 0x39)) || ((0x41 <=? c) && (c <=? 0x46)).

(** A verdict of the bad-format kind. *)
Definition bad_format (v : Verdict.t) : Prop :=
  Verdict.valid v = false /\
  exists msg, Verdict.error v = Some msg /\
              startswith msg (lit "Invalid format") = true.

(** [s] with the character at index [i] changed to [c]. *)
Fixpoint set_char (i : nat) (c : N) (s : str) : str :=
  match s, i with
  | [], _ => []
  | _ :: s', O => c :: s'
  | x :: s', S i' => x :: set_char i' c s'
  end.

(** [s] with [c] inserted before index [i]. *)
Definition insert_char (i : nat) (c : N) (s : str) : str :=
  firstn i s ++ c :: skipn i s.

(** A character cleaning keeps wherever it stands. *)
Definition is_plain (c : N) : bool := negb (c =? 0x2D) && negb (isspace c).

(** The two [replace] calls of [clean]. *)
Definition unhyphen (s : str) : str := replace 0x20 [] (replace 0x2D [] s).

(** The characters cleaning does not remove inside a key. *)
Definition kept (c : N) : bool := negb (c =? 0x2D) && negb (c =? 0x20).

(** An uppercase ASCII letter or a digit. *)
Definition is_upper_alnum (c : N) : bool :=
  ((0x30 <=? c) && (c <=? 0x39)) || ((0x41 <=? c) && (c <=? 0x5A)).

(* ================================================================== *)
(** ** The script: [print_usage] and [main] *)

Module Script.

(** How a statement ends: normally, by an exception, or by [sys.exit]. *)
Inductive flow (A : Type) : Type :=
| Normal (a : A)
| Raised (e : exn)
| Exited (status : nat).
Arguments Normal {A} a.
Arguments Raised {A} e.
Arguments Exited {A} status.

(** A statement maps the text written to standard output so far to how it
    ends and the text written then. *)
Definition IO (A : Type) : Type := str -> flow A * str.

Definition ret {A : Type} (a : A) : IO A := fun out => (Normal a, out).

Definition bind {A B : Type} (m : IO A) (k : A -> IO B) : IO B :=
  fun out =>
    match m out with
    | (Normal a, out') => k a out'
    | (Raised e, out') => (Raised e, out')
    | (Exited status, out') => (Exited status, out')
    end.

(** A call of one of the two functions: it writes nothing. *)
Definition lift {A : Type} (m : M A) : IO A :=
  fun out =>
    match m with
    | Return a => (Normal a, out)
    | Raise e => (Raised e, out)
    end.

(** [sys.exit(status)]: the [SystemExit] it raises is no [Exception], so no
    handler of the script catches it. *)
Definition sys_exit {A : Type} (status : nat) : IO A :=
  fun out => (Exited status, out).

(** [print(s)].  Standard output is a UTF-8 text stream with the strict
    error handler (the default in a UTF-8 locale): a text holding a lone
    surrogate is refused whole, with the codec's error, and anything else is
    written followed by a line feed. *)
Definition print (s : str) : IO unit :=
  fun out =>
    match encode_utf8 s with
    | Return _ => (Normal tt, out ++ s ++ [0x0A])
    | Raise e => (Raised e, out)
    end.

(** [s * n]. *)
Definition str_mul (s : str) (n : nat) : str := concat (repeat s n).

(** [except ValueError]: the class and its subclasses. *)
Definition is_ValueError (e : exn) : bool :=
  match e with
  | ValueError _ => true
  | UnicodeEncodeError _ _ _ _ _ => true
  | IndexError _ => false
  | KeyError _ => false
  end.

(** [try: body  except ValueError as e: h1(e)  except Exception as e: h2(e)] *)
Definition try_except2 {A : Type} (body : IO A) (h1 h2 : exn -> IO A) : IO A :=
  fun out =>
    match body out with
    | (Raised e, out') => if is_ValueError e then h1 e out' else h2 e out'
    | r => r
    end.

(** [c in s] for a one-character [c]. *)
Definition contains_char (c : N) (s : str) : bool := existsb (N.eqb c) s.

(** [x in l] for a list of strings. *)
Definition list_contains (l : list str) (x : str) : bool := existsb (str_eqb x) l.

(** [argv[i]]. *)
Definition list_getitem (l : list str) (i : nat) : M str :=
  match nth_error l i with
  | Some a => Return a
  | None => Raise (IndexError (lit "list index out of range"))
  end.

(** [d[name]] for a key of the verdict that may be absent. *)
Definition field_getitem (name : str) (field : option str) : M str :=
  match field with
  | Some v => Return v
  | None => Raise (KeyError name)
  end.

(** [d.get(name, default)]. *)
Definition field_get (field : option str) (default : str) : str :=
  match field with
  | Some v => v
  | None => default
  end.

Notation "x <-- m ;; k" := (bind m (fun x => k))
  (at level 61, m at next level, right associativity).
Notation "m >> k" := (bind m (fun _ => k))
  (at level 61, right associativity).

Definition print_usage : IO unit :=
  print (lit "Parallax License Key Generator") >>
  print (str_mul (lit "=") 50) >>
  print ([0x0A] ++ lit "Usage:") >>
  print (lit "  python generate-license.py <email> <tier>") >>
  print ([0x0A] ++ lit "Tiers:") >>
  print (lit "  pro        - Professional ($79)") >>
  print (lit "  team       - Team ($299, 5 licenses)") >>
  print (lit "  enterprise - Enterprise (custom pricing)") >>
  print ([0x0A] ++ lit "Examples:") >>
  print (lit "  python generate-license.py customer@example.com pro") >>
  print (lit "  python generate-license.py team@company.com team") >>
  print [].

Section WithSecret.

Variable secret : str.

(** The body of the [try] block of [main].  [tier.upper()] is reached only
    after [generate_license] has returned, that is for a tier made of ASCII
    letters, where [upper] is exact. *)
Definition main_try (email tier : str) : IO unit :=
  license_key <-- lift (generate_license secret email tier) ;;
  print [] >>
  print (str_mul (lit "=") 60) >>
  print (lit "License Key Generated Successfully") >>
  print (str_mul (lit "=") 60) >>
  print (lit "Email:   " ++ email) >>
  print (lit "Tier:    " ++ upper tier) >>
  print (lit "License: " ++ license_key) >>
  print (str_mul (lit "=") 60) >>
  print [] >>
  validation <-- lift (validate_license secret license_key email) ;;
  print (lit "Validation Test:") >>
  (if Verdict.valid validation then
     print ([0x20; 0x20; 0x2713] ++ lit " Valid") >>
     (t <-- lift (field_getitem (lit "tier") (Verdict.tier validation)) ;;
      print (lit "  Tier: " ++ t)) >>
     (x <-- lift (field_getitem (lit "expiry") (Verdict.expiry validation)) ;;
      print (lit "  Expiry: " ++ x))
   else
     print ([0x20; 0x20; 0x2717] ++ lit " Invalid: "
            ++ field_get (Verdict.error validation) (lit "Unknown error"))) >>
  print [] >>
  print (lit "Next Steps:") >>
  print (lit "1. Send this license key to the customer via email") >>
  print (lit "2. Customer activates in Settings " ++ [0x2192] ++ lit " License") >>
  print (lit "3. Track in your sales spreadsheet") >>
  print [].

Definition help_flags : list str := [lit "-h"; lit "--help"; lit "help"].

(** [len(sys.argv) > 1 and sys.argv[1] in ['-h', '--help', 'help']] *)
Definition help_requested (argv : list str) : bool :=
  (1 <? length argv)%nat
  && match nth_error argv 1 with
     | Some a => list_contains help_flags a
     | None => false
     end.

Definition main (argv : list str) : IO unit :=
  (if help_requested argv then print_usage >> sys_exit 0 else ret tt) >>
  (if (length argv <? 3)%nat then
     print (lit "Error: Missing required arguments" ++ [0x0A]) >>
     print_usage >>
     sys_exit 1
   else ret tt) >>
  email <-- lift (list_getitem argv 1) ;;
  tier <-- lift (list_getitem argv 2) ;;
  (if negb (contains_char 0x40 email) || negb (contains_char 0x2E email) then
     print (lit "Error: Invalid email format: " ++ email) >> sys_exit 1
   else ret tt) >>
  try_except2 (main_try email tier)
    (fun e => print (lit "Error: " ++ str_of_exn e) >> sys_exit 1)
    (fun e => print (lit "Unexpected error: " ++ str_of_exn e) >> sys_exit 1).

(** The script run as a program: its exit status and what it wrote.  An
    exception nobody caught ends the interpreter with status 1. *)
Definition run (argv : list str) : nat * str :=
  match main argv [] with
  | (Normal _, out) => (O, out)
  | (Exited status, out) => (status, out)
  | (Raised _, out) => (1%nat, out)
  end.

End WithSecret.

(** Lines of text, each ended by a line feed. *)
Definition unlines (ls : list str) : str := flat_map (fun l => l ++ [0x0A]) ls.

(** What [print_usage] writes. *)
Definition usage_lines : list str :=
  [lit "Parallax License Key Generator";
   lit "==================================================";
   []; lit "Usage:";
   lit "  python generate-license.py <email> <tier>";
   []; lit "Tiers:";
   lit "  pro        - Professional ($79)";
   lit "  team       - Team ($299, 5 licenses)";
   lit "  enterprise - Enterprise (custom pricing)";
   []; lit "Examples:";
   lit "  python generate-license.py customer@example.com pro";
   lit "  python generate-license.py team@company.com team";
   []].

(** What a successful run writes for an email, the tier as typed, the tier
    as decoded and the key. *)
Definition success_lines (email tier_typed tier_decoded key : str) : list str :=
  [[];
   lit "============================================================";
   lit "License Key Generated Successfully";
   lit "============================================================";
   lit "Email:   " ++ email;
   lit "Tier:    " ++ upper tier_typed;
   lit "License: " ++ key;
   lit "============================================================";
   [];
   lit "Validation Test:";
   [0x20; 0x20; 0x2713] ++ lit " Valid";
   lit "  Tier: " ++ tier_decoded;
   lit "  Expiry: LIFE";
   [];
   lit "Next Steps:";
   lit "1. Send this license key to the customer via email";
   lit "2. Customer activates in Settings " ++ [0x2192] ++ lit " License";
   lit "3. Track in your sales spreadsheet";
   []].

End Script.

(* ================================================================== *)
(** ** Library facts *)

(** The hash against the test vectors of FIPS 180-4. *)
Example sha256_empty :
  SHA256.hexdigest (SHA256.sha256 [])
  = lit "e3b0c44298fc1c149afbf4c8996fb92427ae41e4649b934ca495991b7852b855".
Proof. vm_compute. reflexivity. Qed.

Example sha256_abc :
  SHA256.hexdigest (SHA256.sha256 (lit "abc"))
  = lit "ba7816bf8f01cfea414140de5dae2223b00361a396177a9cb410ff61f20015ad".
Proof. vm_compute. reflexivity. Qed.

Example sha256_two_blocks :
  SHA256.hexdigest (SHA256.sha256
    (lit "abcdbcdecdefdefgefghfghighijhijkijkljklmklmnlmnomnopnopq"))
  = lit "248d6a61d20638b8e5c026930c3e6039a33ce45964ff2167f6ecedd419db06c1".
Proof. vm_compute. reflexivity. Qed.

(** Runs of the program on the shipped secret. *)
Example generate_customer_pro :
  generate_license SECRET_KEY (lit "customer@email.com") (lit "pro")
  = Return (lit "PRLX-PLIF-EBCF-37BC-48F6-8").
Proof. vm_compute. reflexivity. Qed.

Example generate_team_mixed_case :
  generate_license SECRET_KEY (lit "a@b.com") (lit "TeAm")
  = Return (lit "PRLX-TLIF-E603-EF06-0607-0").
Proof. vm_compute. reflexivity. Qed.

Example validate_customer_pro :
  validate_license SECRET_KEY (lit "PRLX-PLIF-EBCF-37BC-48F6-8")
                   (lit "customer@email.com")
  = Return (Verdict.mk true (Some (lit "pro")) (Some (lit "LIFE"))
                       (Some (lit "customer@email.com")) None).
Proof. vm_compute. reflexivity. Qed.

(** Code points of two, three and four octets (U+00E9, U+20AC, U+1F600). *)
Example generate_non_ascii_email :
  generate_license SECRET_KEY ([0xE9; 0x20AC; 0x1F600] ++ lit "@b.com")
                   (lit "enterprise")
  = Return (lit "PRLX-ELIF-E1EE-11A1-4153-1").
Proof. vm_compute. reflexivity. Qed.

(** An email holding a lone surrogate (as [sys.argv] yields for an
    undecodable byte) makes [encode] raise inside the [try] block. *)
Example validate_surrogate_email :
  validate_license SECRET_KEY (lit "PRLX-PLIF-EBCF-37BC-48F6-8")
                   (lit "a" ++ [0xDC80])
  = Return (invalid (lit "Validation error: 'utf-8' codec can't encode character '\udc80' in position 1: surrogates not allowed")).
Proof. vm_compute. reflexivity. Qed.

Example generate_surrogate_email :
  generate_license SECRET_KEY ([0xDC80; 0xDC81] ++ lit "@b.c") (lit "pro")
  = Raise (UnicodeEncodeError (lit "utf-8")
             ([0xDC80; 0xDC81] ++ lit "@b.c|pro|" ++ SECRET_KEY) 0 2
             (lit "surrogates not allowed")).
Proof. vm_compute. reflexivity. Qed.

Ltac to_prop :=
  repeat first
    [ rewrite andb_true_iff in * | rewrite orb_true_iff in *
    | rewrite andb_false_iff in * | rewrite orb_false_iff in *
    | rewrite negb_true_iff in * | rewrite negb_false_iff in *
    | rewrite N.leb_le in * | rewrite N.leb_gt in *
    | rewrite N.ltb_lt in * | rewrite N.ltb_ge in *
    | rewrite N.eqb_eq in * | rewrite N.eqb_neq in * ].

Lemma str_eqb_refl (s : str) : str_eqb s s = true.
Proof. unfold str_eqb. destruct (list_eq_dec N.eq_dec s s); congruence. Qed.

Lemma str_eqb_eq (a b : str) : str_eqb a b = true <-> a = b.
Proof.
  unfold str_eqb. destruct (list_eq_dec N.eq_dec a b); split; congruence.
Qed.

Lemma str_eqb_neq (a b : str) : str_eqb a b = false <-> a <> b.
Proof.
  unfold str_eqb. destruct (list_eq_dec N.eq_dec a b); split; congruence.
Qed.

Lemma hexdigit_range (n : N) :
  0x30 <= hexdigit n <= 0x39 \/ 0x61 <= hexdigit n <= 0x66.
Proof.
  unfold hexdigit.
  assert (N.land n 0xF < 16) as Hlt.
  { change 0xF with (N.ones 4). rewrite N.land_ones.
    apply N.mod_lt. discriminate. }
  cbv zeta. destruct (N.ltb_spec (N.land n 0xF) 10); lia.
Qed.

Lemma upper_hexdigit (n : N) : is_upper_hex (upper_char (hexdigit n)) = true.
Proof.
  unfold upper_char, is_upper_hex.
  destruct (hexdigit_range n) as [H | H];
    destruct ((0x61 <=? hexdigit n) && (hexdigit n <=? 0x7A)) eqn:E;
    to_prop; lia.
Qed.

Lemma Forall_firstn {A} (P : A -> Prop) (n : nat) (l : list A) :
  Forall P l -> Forall P (firstn n l).
Proof.
  intros H. revert n. induction H; intros [|n]; simpl; auto.
Qed.

Lemma sha256_length (msg : bytes) : length (SHA256.sha256 msg) = 32%nat.
Proof. unfold SHA256.sha256, SHA256.digest_of. reflexivity. Qed.

(** From here on the hash is a black box for the proof engine; [vm_compute]
    still runs it. *)
Opaque SHA256.sha256.

Lemma hexdigest_length (d : bytes) :
  length (SHA256.hexdigest d) = (2 * length d)%nat.
Proof. induction d; simpl; lia. Qed.

Lemma hexdigest_upper_hex (d : bytes) :
  Forall (fun c => is_upper_hex c = true) (upper (SHA256.hexdigest d)).
Proof.
  induction d; simpl; repeat constructor; auto using upper_hexdigit.
Qed.

Lemma upper_firstn (n : nat) (s : str) : upper (firstn n s) = firstn n (upper s).
Proof. unfold upper. symmetry. apply firstn_map. Qed.

(** The digest fragment of the source is the one the specification words. *)
Lemma hash_part_of_digest_part (secret email tier : str) :
  hash_part_of secret email tier =
  (hash_input <- encode_utf8 (email ++ lit "|" ++ tier ++ lit "|" ++ secret) ;;
   Return (digest_part hash_input)).
Proof.
  unfold hash_part_of, digest_part, slice, bind.
  destruct (encode_utf8 _); [|reflexivity].
  now rewrite upper_firstn.
Qed.

Lemma digest_part_shape (b : bytes) :
  length (digest_part b) = 12%nat /\
  Forall (fun c => is_upper_hex c = true) (digest_part b).
Proof.
  unfold digest_part, slice. simpl skipn. split.
  - rewrite firstn_length_le; [reflexivity|].
    unfold upper. rewrite length_map, hexdigest_length, sha256_length. lia.
  - apply Forall_firstn, hexdigest_upper_hex.
Qed.

Lemma hash_part_shape (secret email tier h : str) :
  hash_part_of secret email tier = Return h ->
  length h = 12%nat /\ Forall (fun c => is_upper_hex c = true) h.
Proof.
  rewrite hash_part_of_digest_part.
  destruct (encode_utf8 _); simpl; [|discriminate].
  intros [= <-]. apply digest_part_shape.
Qed.

Lemma find_surrogate_none (s : str) (i : nat) :
  encodable s = true -> find_surrogate i s = None.
Proof.
  revert i. induction s as [|c s IH]; simpl; intros i H; [reflexivity|].
  apply andb_true_iff in H as [Hc Hs].
  apply negb_true_iff in Hc. rewrite Hc. now apply IH.
Qed.

Lemma find_surrogate_some (s : str) (i : nat) :
  encodable s = false -> exists j, find_surrogate i s = Some j.
Proof.
  revert i. induction s as [|c s IH]; simpl; intros i H; [discriminate|].
  destruct (is_surrogate c); simpl in H; eauto.
Qed.

(** [encode] returns exactly on the encodable strings. *)
Lemma encode_utf8_returns (s : str) :
  encodable s = true -> encode_utf8 s = Return (flat_map utf8_char s).
Proof. intros H. unfold encode_utf8. now rewrite find_surrogate_none. Qed.

Lemma encode_utf8_raises (s : str) :
  encodable s = false ->
  exists i j, encode_utf8 s =
              Raise (UnicodeEncodeError (lit "utf-8") s i j
                       (lit "surrogates not allowed")).
Proof.
  intros H. unfold encode_utf8.
  destruct (find_surrogate_some s 0 H) as [j ->]. eauto.
Qed.

Lemma encodable_app (a b : str) :
  encodable (a ++ b) = encodable a && encodable b.
Proof. apply forallb_app. Qed.

Lemma hash_part_of_returns (secret email tier : str) :
  encodable (email ++ tier ++ secret) = true ->
  exists h, hash_part_of secret email tier = Return h.
Proof.
  intros H. rewrite hash_part_of_digest_part.
  rewrite encode_utf8_returns; [unfold bind; eauto|].
  rewrite !encodable_app in *.
  apply andb_true_iff in H as [He H]. apply andb_true_iff in H as [Ht Hs].
  now rewrite He, Ht, Hs.
Qed.

(* ------------------------------------------------------------------ *)
(** *** Chunking and joining *)

(** Induction over a string four characters at a time. *)
Lemma str_ind4 (P : str -> Prop) :
  P [] -> (forall a, P [a]) -> (forall a b, P [a; b]) ->
  (forall a b c, P [a; b; c]) ->
  (forall a b c d rest, P rest -> P (a :: b :: c :: d :: rest)) ->
  forall s, P s.
Proof.
  intros H0 H1 H2 H3 H4.
  fix IH 1.
  intros [|a [|b [|c [|d rest]]]];
    [exact H0 | apply H1 | apply H2 | apply H3 | apply H4, IH].
Qed.

Lemma range0_step4 (n : nat) :
  range0 (4 + n) 4 = O :: map (fun i => 4 + i)%nat (range0 n 4).
Proof.
  unfold range0.
  replace ((4 + n + 4 - 1) / 4)%nat with (S ((n + 4 - 1) / 4)).
  - cbn [seq map]. f_equal.
    rewrite <- seq_shift, !map_map. apply map_ext. intros k. lia.
  - replace (4 + n + 4 - 1)%nat with (n + 4 - 1 + 1 * 4)%nat by lia.
    rewrite Nat.div_add by discriminate. lia.
Qed.

(** The list comprehension of the source cuts successive chunks of four. *)
Lemma segments_chunks4 (s : str) :
  map (fun i => slice i (i + 4) s) (range0 (len s) 4) = chunks4 s.
Proof.
  induction s as [| a | a b | a b c | a b c d rest IH] using str_ind4;
    try reflexivity.
  unfold len in *. cbn [length chunks4].
  change (S (S (S (S (length rest))))) with (4 + length rest)%nat.
  rewrite range0_step4. cbn [map]. f_equal.
  rewrite map_map, <- IH. apply map_ext. intros i.
  unfold slice. cbn [Nat.add skipn]. reflexivity.
Qed.

Lemma concat_chunks4 (s : str) : concat (chunks4 s) = s.
Proof.
  induction s as [| a | a b | a b c | a b c d rest IH] using str_ind4;
    try reflexivity.
  cbn [chunks4 concat app]. now rewrite IH.
Qed.

Lemma replace_app (old : N) (new a b : str) :
  replace old new (a ++ b) = replace old new a ++ replace old new b.
Proof. apply flat_map_app. Qed.

Lemma replace_hyphen_join (parts : list str) :
  replace 0x2D [] (join (lit "-") parts) = replace 0x2D [] (concat parts).
Proof.
  induction parts as [|p [|q rest] IH].
  - reflexivity.
  - cbn [join concat]. now rewrite app_nil_r.
  - change (join (lit "-") (p :: q :: rest))
      with (p ++ lit "-" ++ join (lit "-") (q :: rest)).
    change (concat (p :: q :: rest)) with (p ++ concat (q :: rest)).
    rewrite !replace_app, IH. reflexivity.
Qed.

(* ------------------------------------------------------------------ *)
(** *** Cleaning *)

Lemma upper_hex_plain (c : N) : is_upper_hex c = true -> is_plain c = true.
Proof.
  unfold is_upper_hex, is_plain, isspace. intros H.
  repeat match goal with
         | |- context [N.eqb c ?k] => destruct (N.eqb_spec c k); [subst c; discriminate H|]
         | |- context [N.leb ?a ?b] => destruct (N.leb_spec a b)
         end; try reflexivity; to_prop; lia.
Qed.

Lemma plain_not_hyphen (c : N) : is_plain c = true -> (c =? 0x2D) = false.
Proof. unfold is_plain. intros H. to_prop. now destruct H. Qed.

Lemma plain_not_isspace (c : N) : is_plain c = true -> isspace c = false.
Proof. unfold is_plain. intros H. apply andb_true_iff in H as [_ H]. now apply negb_true_iff. Qed.

Lemma isspace_space : isspace 0x20 = true.
Proof. reflexivity. Qed.

Lemma plain_not_space (c : N) : is_plain c = true -> (c =? 0x20) = false.
Proof.
  intros H. destruct (N.eqb_spec c 0x20) as [-> |]; [discriminate H | reflexivity].
Qed.

Lemma clean_unhyphen (s : str) : clean s = strip (unhyphen s).
Proof. reflexivity. Qed.

Lemma unhyphen_app (a b : str) : unhyphen (a ++ b) = unhyphen a ++ unhyphen b.
Proof. unfold unhyphen. now rewrite !replace_app. Qed.

Lemma unhyphen_nil : unhyphen [] = [].
Proof. reflexivity. Qed.

Lemma unhyphen_cons_hyphen (s : str) : unhyphen (0x2D :: s) = unhyphen s.
Proof. reflexivity. Qed.

Lemma unhyphen_cons_space (s : str) : unhyphen (0x20 :: s) = unhyphen s.
Proof. reflexivity. Qed.

Lemma unhyphen_cons_other (c : N) (s : str) :
  (c =? 0x2D) = false -> (c =? 0x20) = false -> unhyphen (c :: s) = c :: unhyphen s.
Proof.
  intros H1 H2. unfold unhyphen, replace. cbn [flat_map]. rewrite H1.
  cbn [app flat_map]. rewrite H2. reflexivity.
Qed.

Lemma unhyphen_cons_plain (c : N) (s : str) :
  is_plain c = true -> unhyphen (c :: s) = c :: unhyphen s.
Proof.
  intros H. apply unhyphen_cons_other;
    auto using plain_not_hyphen, plain_not_space.
Qed.

Lemma unhyphen_plain (s : str) :
  Forall (fun c => is_plain c = true) s -> unhyphen s = s.
Proof.
  induction 1 as [|c s Hc Hs IH]; [reflexivity|].
  now rewrite unhyphen_cons_plain, IH.
Qed.

Lemma unhyphen_join (parts : list str) :
  unhyphen (join (lit "-") parts) = unhyphen (concat parts).
Proof. unfold unhyphen. now rewrite replace_hyphen_join. Qed.

Lemma lstrip_keep (c : N) (s : str) : isspace c = false -> lstrip (c :: s) = c :: s.
Proof. intros H. cbn [lstrip]. now rewrite H. Qed.

Lemma lstrip_drop (c : N) (s : str) : isspace c = true -> lstrip (c :: s) = lstrip s.
Proof. intros H. cbn [lstrip]. now rewrite H. Qed.

Lemma rstrip_nil : rstrip [] = [].
Proof. reflexivity. Qed.

Lemma rstrip_keep (s : str) (c : N) :
  isspace c = false -> rstrip (s ++ [c]) = s ++ [c].
Proof.
  intros H. unfold rstrip. rewrite rev_app_distr. cbn [rev app].
  rewrite lstrip_keep by assumption. cbn [rev]. now rewrite rev_involutive.
Qed.

Lemma rstrip_drop (s : str) (c : N) :
  isspace c = true -> rstrip (s ++ [c]) = rstrip s.
Proof.
  intros H. unfold rstrip. rewrite rev_app_distr. cbn [rev app].
  now rewrite lstrip_drop.
Qed.

(** [strip] leaves a string alone when neither end is whitespace. *)
Lemma strip_keep (a z : N) (m : str) :
  isspace a = false -> isspace z = false ->
  strip (a :: m ++ [z]) = a :: m ++ [z].
Proof.
  intros Ha Hz. unfold strip. rewrite lstrip_keep by assumption.
  now rewrite app_comm_cons, rstrip_keep.
Qed.

Lemma strip_plain (s : str) :
  Forall (fun c => is_plain c = true) s -> strip s = s.
Proof.
  intros H. destruct s as [|a s]; [reflexivity|].
  destruct (exists_last (l := a :: s)) as (m & z & E); [discriminate|].
  assert (isspace a = false) as Ha.
  { inversion H; subst. now apply plain_not_isspace. }
  assert (isspace z = false) as Hz.
  { rewrite E in H. apply Forall_app in H as [_ H].
    inversion H; subst. now apply plain_not_isspace. }
  unfold strip. rewrite lstrip_keep by assumption.
  rewrite E. now apply rstrip_keep.
Qed.

Lemma clean_plain (s : str) :
  Forall (fun c => is_plain c = true) s -> clean s = s.
Proof.
  intros H. rewrite clean_unhyphen, unhyphen_plain by assumption.
  now apply strip_plain.
Qed.

(** Cleaning undoes the hyphenation. *)
Lemma clean_hyphenate (s : str) : clean (hyphenate s) = clean s.
Proof.
  unfold hyphenate. now rewrite !clean_unhyphen, unhyphen_join, concat_chunks4.
Qed.

(* ------------------------------------------------------------------ *)
(** *** The two functions, step by step *)

(** The tier table and its inverse. *)
Lemma tier_codes_cases (tier code : str) :
  In (tier, code) tier_codes ->
  (tier = lit "pro" /\ code = lit "P")
  \/ (tier = lit "team" /\ code = lit "T")
  \/ (tier = lit "enterprise" /\ code = lit "E").
Proof.
  intros [E | [E | [E | []]]]; injection E as <- <-; auto.
Qed.

Lemma tiers_codes (tier : str) :
  In tier tiers <-> exists code, In (tier, code) tier_codes.
Proof.
  split.
  - intros [<- | [<- | [<- | []]]]; eexists; cbn; eauto.
  - intros [code H]. apply tier_codes_cases in H.
    destruct H as [[-> _] | [[-> _] | [-> _]]]; cbn; auto.
Qed.

Lemma dict_contains_tier_codes (t : str) :
  dict_contains tier_codes t = true <-> In t tiers.
Proof.
  unfold dict_contains, tier_codes, tiers. cbn [dict_get In].
  destruct (str_eqb t (lit "pro")) eqn:E1;
    [apply str_eqb_eq in E1; intuition|].
  destruct (str_eqb t (lit "team")) eqn:E2;
    [apply str_eqb_eq in E2; intuition|].
  destruct (str_eqb t (lit "enterprise")) eqn:E3;
    [apply str_eqb_eq in E3; intuition|].
  apply str_eqb_neq in E1, E2, E3.
  split; [discriminate|]. intros [H | [H | [H | []]]]; congruence.
Qed.

Lemma tier_codes_lookup (tier code : str) :
  In (tier, code) tier_codes ->
  dict_contains tier_codes tier = true
  /\ dict_getitem tier_codes tier = Return code.
Proof.
  intros H. apply tier_codes_cases in H.
  destruct H as [[-> ->] | [[-> ->] | [-> ->]]]; split; reflexivity.
Qed.

(** What [generate_license] computes for a known tier. *)
Lemma generate_license_known (secret email tier code : str) :
  In (lower tier, code) tier_codes ->
  generate_license secret email tier =
  (hash_part <- hash_part_of secret email (lower tier) ;;
   Return (hyphenate (lit "PRLX" ++ code ++ lit "LIFE" ++ hash_part))).
Proof.
  intros H. unfold generate_license, hyphenate. cbv zeta.
  destruct (tier_codes_lookup _ _ H) as [-> ->]. cbn [negb bind].
  destruct (hash_part_of _ _ _); cbn [bind]; [|reflexivity].
  now rewrite segments_chunks4.
Qed.

(** What [validate_license] computes once the cleaned key is known to be
    the prefix, a tier code, four expiry characters and a digest of at
    least eight characters. *)
Lemma validate_license_cleaned (secret key email tier code x hp : str) :
  In (tier, code) tier_codes ->
  clean key = lit "PRLX" ++ code ++ x ++ hp ->
  length x = 4%nat -> (8 <= length hp)%nat ->
  validate_license secret key email =
  match hash_part_of secret email tier with
  | Return h =>
      Return (if str_eqb hp h
              then Verdict.mk true (Some tier) (Some x) (Some email) None
              else invalid (lit "Invalid key: hash mismatch"))
  | Raise e => Return (invalid (lit "Validation error: " ++ str_of_exn e))
  end.
Proof.
  intros Hin Hc Hx Hhp.
  unfold validate_license, validate_license_body. cbv zeta. rewrite Hc.
  destruct x as [|x0 [|x1 [|x2 [|x3 [|]]]]]; try discriminate Hx.
  assert ((len (lit "PRLX" ++ code ++ [x0; x1; x2; x3] ++ hp) <? 17)%nat = false)
    as E17.
  { apply Nat.ltb_ge. unfold len. rewrite !length_app.
    apply tier_codes_cases in Hin.
    destruct Hin as [[_ ->] | [[_ ->] | [_ ->]]]; cbn; lia. }
  rewrite E17.
  apply tier_codes_cases in Hin.
  destruct Hin as [[-> ->] | [[-> ->] | [-> ->]]]; cbn;
    destruct (hash_part_of _ _ _); cbn; try reflexivity;
    destruct (str_eqb hp a); reflexivity.
Qed.

Lemma plain_raw_key (code h : str) :
  (exists tier, In (tier, code) tier_codes) ->
  Forall (fun c => is_upper_hex c = true) h ->
  Forall (fun c => is_plain c = true) (lit "PRLX" ++ code ++ lit "LIFE" ++ h).
Proof.
  intros [tier Hin] Hh.
  assert (Forall (fun c => is_plain c = true) h) as Hp.
  { eapply Forall_impl; [|exact Hh]. apply upper_hex_plain. }
  apply tier_codes_cases in Hin.
  destruct Hin as [[_ ->] | [[_ ->] | [_ ->]]];
    repeat (apply Forall_cons; [reflexivity|]); exact Hp.
Qed.

(** The cleaned form of a generated key is its raw key. *)
Lemma clean_generated (secret email tier code key : str) :
  In (lower tier, code) tier_codes ->
  generate_license secret email tier = Return key ->
  exists h, hash_part_of secret email (lower tier) = Return h
            /\ key = hyphenate (lit "PRLX" ++ code ++ lit "LIFE" ++ h)
            /\ clean key = lit "PRLX" ++ code ++ lit "LIFE" ++ h
            /\ length h = 12%nat
            /\ Forall (fun c => is_upper_hex c = true) h.
Proof.
  intros Hin Hg. rewrite (generate_license_known _ _ _ _ Hin) in Hg.
  destruct (hash_part_of secret email (lower tier)) as [h|] eqn:Eh;
    [|discriminate Hg].
  injection Hg as <-. exists h.
  destruct (hash_part_shape _ _ _ _ Eh) as [Hl Hf].
  repeat split; auto.
  rewrite clean_hyphenate. apply clean_plain, plain_raw_key; eauto.
Qed.

Lemma lower_tiers (tier : str) : In tier tiers -> lower tier = tier.
Proof. intros [<- | [<- | [<- | []]]]; reflexivity. Qed.

Ltac body_cases :=
  repeat (cbn [bind try_except negb];
          match goal with
          | |- context [if ?c then _ else _] => destruct c eqn:?
          | |- context [bind ?m _] => destruct m eqn:?
          end).

(* ================================================================== *)
(** ** Properties of the key scheme *)

(** C1 (round trip).  For every email and every tier among pro, team and
    enterprise, the key [generate_license] returns validates against the same
    email: the verdict is valid, carries the input tier, the marker LIFE and
    the email.  A key is returned for every email and secret the UTF-8 codec
    accepts. *)
Theorem roundtrip (secret email tier : str) :
  In tier tiers ->
  (forall key,
      generate_license secret email tier = Return key ->
      validate_license secret key email =
      Return (Verdict.mk true (Some tier) (Some (lit "LIFE")) (Some email) None))
  /\ (encodable (email ++ secret) = true ->
      exists key, generate_license secret email tier = Return key).
Proof.
  intros Ht. pose proof (lower_tiers _ Ht) as Hl.
  destruct (proj1 (tiers_codes tier) Ht) as [code Hin]. split.
  - intros key Hg.
    assert (In (lower tier, code) tier_codes) as Hin' by now rewrite Hl.
    destruct (clean_generated _ _ _ _ _ Hin' Hg) as (h & Eh & _ & Hc & Hlen & _).
    rewrite Hl in Eh.
    rewrite (validate_license_cleaned secret key email tier code (lit "LIFE") h
               Hin Hc);
      [| reflexivity | lia].
    now rewrite Eh, str_eqb_refl.
  - intros He. rewrite (generate_license_known secret email tier code)
      by now rewrite Hl.
    destruct (hash_part_of_returns secret email (lower tier)) as [h ->].
    + rewrite Hl, !encodable_app in *.
      apply andb_true_iff in He as [-> ->].
      destruct Ht as [<- | [<- | [<- | []]]]; reflexivity.
    + cbn [bind]. eauto.
Qed.

Lemma roundtrip_witness :
  In (lit "pro") tiers
  /\ validate_license SECRET_KEY (lit "PRLX-PLIF-EBCF-37BC-48F6-8")
                      (lit "customer@email.com")
     = Return (Verdict.mk true (Some (lit "pro")) (Some (lit "LIFE"))
                          (Some (lit "customer@email.com")) None).
Proof.
  assert (In (lit "pro") tiers) as H by (left; reflexivity).
  split; [exact H|].
  apply (proj1 (roundtrip SECRET_KEY (lit "customer@email.com") (lit "pro") H)).
  vm_compute. reflexivity.
Defined.

(** C2 (key format).  For a tier that lowercases to pro, team or enterprise,
    with [code] its tier code, [generate_license] returns the hyphenation into
    successive 4-character chunks of the raw key PRLX + code + LIFE + digest
    part, the digest part being the first 12 characters of the uppercased hex
    SHA-256 of email|lowercase tier|secret; the raw key has 21 characters. *)
Theorem generate_license_format (secret email tier code : str) :
  In (lower tier, code) tier_codes ->
  generate_license secret email tier =
  (hash_input <-
     encode_utf8 (email ++ lit "|" ++ lower tier ++ lit "|" ++ secret) ;;
   Return (hyphenate
             (lit "PRLX" ++ code ++ lit "LIFE" ++ digest_part hash_input)))
  /\ (forall hash_input,
         len (lit "PRLX" ++ code ++ lit "LIFE" ++ digest_part hash_input)
         = 21%nat).
Proof.
  intros Hin. split.
  - rewrite (generate_license_known _ _ _ _ Hin), hash_part_of_digest_part.
    now destruct (encode_utf8 _).
  - intros b. unfold len. rewrite !length_app.
    rewrite (proj1 (digest_part_shape b)).
    apply tier_codes_cases in Hin.
    destruct Hin as [[_ ->] | [[_ ->] | [_ ->]]]; reflexivity.
Qed.

Lemma generate_license_format_witness :
  In (lower (lit "Team"), lit "T") tier_codes
  /\ generate_license SECRET_KEY (lit "a@b.com") (lit "Team")
     = (hash_input <-
          encode_utf8 (lit "a@b.com" ++ lit "|" ++ lower (lit "Team")
                       ++ lit "|" ++ SECRET_KEY) ;;
        Return (hyphenate
                  (lit "PRLX" ++ lit "T" ++ lit "LIFE"
                   ++ digest_part hash_input))).
Proof.
  assert (In (lower (lit "Team"), lit "T") tier_codes) as H
      by (right; left; reflexivity).
  split; [exact H|].
  exact (proj1 (generate_license_format SECRET_KEY (lit "a@b.com")
                  (lit "Team") (lit "T") H)).
Defined.

(** C4 (tier rejection).  [generate_license] raises the invalid-tier error
    exactly when the lowercased tier is none of pro, team, enterprise; the
    tier gold is rejected for every email. *)
Theorem generate_license_invalid_tier (secret email tier : str) :
  (generate_license secret email tier = Raise (InvalidTier tier)
   <-> ~ In (lower tier) tiers)
  /\ generate_license secret email (lit "gold")
     = Raise (InvalidTier (lit "gold")).
Proof.
  split; [|reflexivity]. split.
  - intros Hg Hin. apply tiers_codes in Hin as [code Hin].
    rewrite (generate_license_known _ _ _ _ Hin), hash_part_of_digest_part in Hg.
    unfold encode_utf8 in Hg.
    destruct (find_surrogate _ _); discriminate Hg.
  - intros Hn. unfold generate_license. cbv zeta.
    destruct (dict_contains tier_codes (lower tier)) eqn:E.
    + apply dict_contains_tier_codes in E. contradiction.
    + reflexivity.
Qed.

(** C9, as the claim words it, fails: the fixture key does not begin with
    PRLXP-LIFE, the fifth character of every key being a hyphen. *)
Lemma fixture_key_not_grouped_by_field :
  ~ (exists rest,
        generate_license (lit "S") (lit "a@b.com") (lit "pro")
        = Return (lit "PRLXP-LIFE" ++ rest)).
Proof. intros [rest H]. vm_compute in H. discriminate H. Qed.

(** C9 (concrete scenario, amended).  With secret S, email a@b.com and tier
    pro the digest part H is E79CCA99C0F6 and the key is the raw key
    PRLXPLIFE + H cut every four characters: PRLX-PLIF-E, then H[0:3], a
    hyphen, H[3:7], a hyphen, H[7:11], a hyphen, H[11]. *)
Theorem fixture_key :
  digest_part (lit "a@b.com|pro|S") = lit "E79CCA99C0F6"
  /\ generate_license (lit "S") (lit "a@b.com") (lit "pro")
     = Return (lit "PRLX-PLIF-E"
               ++ slice 0 3 (digest_part (lit "a@b.com|pro|S")) ++ lit "-"
               ++ slice 3 7 (digest_part (lit "a@b.com|pro|S")) ++ lit "-"
               ++ slice 7 11 (digest_part (lit "a@b.com|pro|S")) ++ lit "-"
               ++ slice 11 12 (digest_part (lit "a@b.com|pro|S")))
  /\ generate_license (lit "S") (lit "a@b.com") (lit "pro")
     = Return (lit "PRLX-PLIF-EE79-CCA9-9C0F-6").
Proof. repeat split; vm_compute; reflexivity. Qed.

(** C3 (the validator never raises).  For every key and email
    [validate_license] returns a verdict: a valid one without error, or an
    invalid one with a non-empty error text.  Whatever the [try] block
    raises comes back as the invalid verdict "Validation error: ...". *)
Theorem validate_license_never_raises (secret license_key email : str) :
  exists v,
    validate_license secret license_key email = Return v
    /\ (Verdict.valid v = true /\ Verdict.error v = None
        \/ Verdict.valid v = false
           /\ exists msg, Verdict.error v = Some msg /\ msg <> [])
    /\ match validate_license_body secret license_key email with
       | Return v' => v = v'
       | Raise e => v = invalid (lit "Validation error: " ++ str_of_exn e)
       end.
Proof.
  unfold validate_license, validate_license_body. cbv zeta.
  body_cases; eexists; (split; [reflexivity|]); (split; [|reflexivity]);
    solve [ left; split; reflexivity
          | right; split; [reflexivity|];
            eexists; split; [reflexivity | discriminate] ].
Qed.

(** C8 (bad format).  The verdict is of the bad-format kind exactly when
    the cleaned key does not start with PRLX or has fewer than 17
    characters. *)
Theorem validate_license_bad_format (secret license_key email : str) :
  exists v,
    validate_license secret license_key email = Return v
    /\ (bad_format v
        <-> startswith (clean license_key) (lit "PRLX") = false
            \/ (len (clean license_key) < 17)%nat).
Proof.
  unfold validate_license, validate_license_body. cbv zeta.
  destruct (startswith (clean license_key) (lit "PRLX")) eqn:Es; cbn [negb].
  2:{ eexists. split; [reflexivity|]. split; [auto|]. intros _.
      split; [reflexivity|]. eexists. split; reflexivity. }
  destruct (len (clean license_key) <? 17)%nat eqn:El.
  { apply Nat.ltb_lt in El. eexists. split; [reflexivity|].
    split; [auto|]. intros _.
    split; [reflexivity|]. eexists. split; reflexivity. }
  apply Nat.ltb_ge in El.
  assert (forall v, ~ bad_format v ->
            bad_format v <-> true = false \/ (len (clean license_key) < 17)%nat)
    as Hno.
  { intros v Hv. split; [contradiction|]. intros [H | H]; [discriminate | lia]. }
  body_cases; eexists; (split; [reflexivity|]); apply Hno;
    intros [Hv (msg & Hm & Hs)]; try discriminate Hv;
    injection Hm as <-; discriminate Hs.
Qed.

(** C6, as the claim words it, fails: two distinct emails whose digest
    parts coincide under the shipped secret; the key generated for the
    first validates against the second. *)
Lemma email_binding_collision :
  lit "user45435058@example.com" <> lit "user53520999@example.com"
  /\ generate_license SECRET_KEY (lit "user45435058@example.com") (lit "pro")
     = Return (lit "PRLX-PLIF-E09C-C164-69C9-E")
  /\ validate_license SECRET_KEY (lit "PRLX-PLIF-E09C-C164-69C9-E")
                      (lit "user53520999@example.com")
     = Return (Verdict.mk true (Some (lit "pro")) (Some (lit "LIFE"))
                          (Some (lit "user53520999@example.com")) None).
Proof.
  split; [discriminate|]. split; vm_compute; reflexivity.
Qed.

(** C6 (email binding, amended).  The key generated for [email_a] validates
    against [email_b] exactly when the two emails have the same digest part
    for that tier; otherwise the verdict is invalid. *)
Theorem email_binding (secret tier email_a email_b key : str) :
  In tier tiers ->
  generate_license secret email_a tier = Return key ->
  exists v,
    validate_license secret key email_b = Return v
    /\ (Verdict.valid v = true
        <-> hash_part_of secret email_b tier = hash_part_of secret email_a tier).
Proof.
  intros Ht Hg. pose proof (lower_tiers _ Ht) as Hl.
  destruct (proj1 (tiers_codes tier) Ht) as [code Hin].
  assert (In (lower tier, code) tier_codes) as Hin' by now rewrite Hl.
  destruct (clean_generated _ _ _ _ _ Hin' Hg) as (h & Eh & _ & Hc & Hlen & _).
  rewrite Hl in Eh.
  rewrite (validate_license_cleaned secret key email_b tier code (lit "LIFE") h
             Hin Hc); [| reflexivity | lia].
  rewrite Eh.
  destruct (hash_part_of secret email_b tier) as [h' | e].
  - destruct (str_eqb h h') eqn:E; eexists; (split; [reflexivity|]); cbn.
    + apply str_eqb_eq in E. subst. tauto.
    + apply str_eqb_neq in E. split; [discriminate|]. congruence.
  - eexists. split; [reflexivity|]. cbn. split; discriminate.
Qed.

Lemma email_binding_witness :
  In (lit "pro") tiers
  /\ exists v,
       validate_license SECRET_KEY (lit "PRLX-PLIF-EBCF-37BC-48F6-8")
                        (lit "other@email.com") = Return v
       /\ (Verdict.valid v = true
           <-> hash_part_of SECRET_KEY (lit "other@email.com") (lit "pro")
               = hash_part_of SECRET_KEY (lit "customer@email.com") (lit "pro")).
Proof.
  assert (In (lit "pro") tiers) as H by (left; reflexivity).
  split; [exact H|].
  apply (email_binding SECRET_KEY (lit "pro") (lit "customer@email.com")
           (lit "other@email.com") (lit "PRLX-PLIF-EBCF-37BC-48F6-8") H).
  vm_compute. reflexivity.
Defined.

(** C10 (the expiry marker is not checked).  Two cleaned keys that differ
    only in the four characters at positions 5 to 8 get the same verdict
    against the same email, up to the expiry: same validity, same tier, same
    error; on success each verdict echoes the four characters supplied. *)
Theorem expiry_unchecked (secret email pre x y suf : str) :
  length pre = 5%nat -> length x = 4%nat -> length y = 4%nat ->
  clean (pre ++ x ++ suf) = pre ++ x ++ suf ->
  clean (pre ++ y ++ suf) = pre ++ y ++ suf ->
  exists v1 v2,
    validate_license secret (pre ++ x ++ suf) email = Return v1
    /\ validate_license secret (pre ++ y ++ suf) email = Return v2
    /\ Verdict.valid v1 = Verdict.valid v2
    /\ Verdict.tier v1 = Verdict.tier v2
    /\ Verdict.error v1 = Verdict.error v2
    /\ (Verdict.valid v1 = true ->
        Verdict.expiry v1 = Some x /\ Verdict.expiry v2 = Some y).
Proof.
  intros Hp Hx Hy Hcx Hcy.
  unfold validate_license, validate_license_body. cbv zeta.
  rewrite Hcx, Hcy. clear Hcx Hcy.
  destruct pre as [|p0 [|p1 [|p2 [|p3 [|p4 [|]]]]]]; try discriminate Hp.
  destruct x as [|x0 [|x1 [|x2 [|x3 [|]]]]]; try discriminate Hx.
  destruct y as [|y0 [|y1 [|y2 [|y3 [|]]]]]; try discriminate Hy.
  cbn [app startswith lit map list_ascii_of_string len length getitem
       nth_error slice slice_from skipn firstn Nat.sub].
  body_cases; do 2 eexists; repeat (split; [reflexivity|]);
    solve [reflexivity | intros Hv; discriminate Hv].
Qed.

Lemma expiry_unchecked_witness :
  exists v1 v2,
    validate_license SECRET_KEY
      (lit "PRLXP" ++ lit "LIFE" ++ lit "BCF37BC48F68")
      (lit "customer@email.com") = Return v1
    /\ validate_license SECRET_KEY
         (lit "PRLXP" ++ lit "2031" ++ lit "BCF37BC48F68")
         (lit "customer@email.com") = Return v2
    /\ Verdict.valid v1 = Verdict.valid v2
    /\ Verdict.tier v1 = Verdict.tier v2
    /\ Verdict.error v1 = Verdict.error v2
    /\ (Verdict.valid v1 = true ->
        Verdict.expiry v1 = Some (lit "LIFE")
        /\ Verdict.expiry v2 = Some (lit "2031")).
Proof.
  apply (expiry_unchecked SECRET_KEY (lit "customer@email.com")
           (lit "PRLXP") (lit "LIFE") (lit "2031") (lit "BCF37BC48F68"));
    reflexivity.
Defined.

(** The forged expiry is accepted and echoed. *)
Example validate_forged_expiry :
  validate_license SECRET_KEY (lit "PRLX-P203-1BCF-37BC-48F6-8")
                   (lit "customer@email.com")
  = Return (Verdict.mk true (Some (lit "pro")) (Some (lit "2031"))
                       (Some (lit "customer@email.com")) None).
Proof. vm_compute. reflexivity. Qed.

(* ------------------------------------------------------------------ *)
(** *** What cleaning forgives *)

(** The verdict depends on the key through its cleaned form only. *)
Lemma validate_license_clean_eq (secret k1 k2 email : str) :
  clean k1 = clean k2 ->
  validate_license secret k1 email = validate_license secret k2 email.
Proof.
  intros E. unfold validate_license, validate_license_body. cbv zeta.
  now rewrite E.
Qed.

Lemma lstrip_spaces_app (w s : str) :
  Forall (fun c => isspace c = true) w -> lstrip (w ++ s) = lstrip s.
Proof.
  induction 1 as [|c w Hc Hw IH]; [reflexivity|].
  cbn [app]. now rewrite lstrip_drop.
Qed.

Lemma rstrip_app_spaces (s w : str) :
  Forall (fun c => isspace c = true) w -> rstrip (s ++ w) = rstrip s.
Proof.
  intros H. unfold rstrip. rewrite rev_app_distr, lstrip_spaces_app; auto.
  now apply Forall_rev.
Qed.

Lemma lstrip_app (u w : str) :
  lstrip (u ++ w) = match lstrip u with [] => lstrip w | _ => lstrip u ++ w end.
Proof.
  induction u as [|c u IH]; [reflexivity|].
  cbn [app lstrip]. destruct (isspace c); [exact IH | reflexivity].
Qed.

Lemma lstrip_all_spaces (w : str) :
  Forall (fun c => isspace c = true) w -> lstrip w = [].
Proof.
  intros H. rewrite <- (app_nil_r w). now rewrite lstrip_spaces_app.
Qed.

Lemma strip_spaces_app (w s : str) :
  Forall (fun c => isspace c = true) w -> strip (w ++ s) = strip s.
Proof. intros H. unfold strip. now rewrite lstrip_spaces_app. Qed.

Lemma strip_app_spaces (s w : str) :
  Forall (fun c => isspace c = true) w -> strip (s ++ w) = strip s.
Proof.
  intros H. unfold strip. rewrite lstrip_app.
  destruct (lstrip s) as [|a t] eqn:E.
  - now rewrite lstrip_all_spaces.
  - now rewrite rstrip_app_spaces.
Qed.

Lemma unhyphen_spaces (w : str) :
  Forall (fun c => isspace c = true) w ->
  Forall (fun c => isspace c = true) (unhyphen w).
Proof.
  induction 1 as [|c w Hc Hw IH]; [constructor|].
  destruct (c =? 0x2D) eqn:E1.
  { apply N.eqb_eq in E1. subst c. discriminate Hc. }
  destruct (c =? 0x20) eqn:E2.
  { apply N.eqb_eq in E2. subst c. now rewrite unhyphen_cons_space. }
  rewrite unhyphen_cons_other by assumption. now constructor.
Qed.

(** Hyphens and spaces are forgiven wherever they stand. *)
Lemma clean_insert_hyphen_or_space (i : nat) (c : N) (s : str) :
  c = 0x2D \/ c = 0x20 -> clean (insert_char i c s) = clean s.
Proof.
  intros Hc. unfold insert_char. rewrite !clean_unhyphen, unhyphen_app.
  replace (unhyphen (c :: skipn i s)) with (unhyphen (skipn i s))
    by (destruct Hc as [-> | ->]; reflexivity).
  now rewrite <- unhyphen_app, firstn_skipn.
Qed.

(** Any whitespace is forgiven at either end. *)
Lemma clean_whitespace_ends (w1 w2 s : str) :
  Forall (fun c => isspace c = true) w1 ->
  Forall (fun c => isspace c = true) w2 ->
  clean (w1 ++ s ++ w2) = clean s.
Proof.
  intros H1 H2. rewrite !clean_unhyphen, !unhyphen_app.
  rewrite strip_spaces_app by now apply unhyphen_spaces.
  now rewrite strip_app_spaces by now apply unhyphen_spaces.
Qed.

Lemma validate_license_forgiving (secret email s w1 w2 : str) (i : nat) (c : N) :
  c = 0x2D \/ c = 0x20 ->
  Forall (fun c => isspace c = true) w1 ->
  Forall (fun c => isspace c = true) w2 ->
  validate_license secret (insert_char i c s) email
  = validate_license secret s email
  /\ validate_license secret (w1 ++ s ++ w2) email
     = validate_license secret s email.
Proof.
  intros Hc H1 H2. split; apply validate_license_clean_eq.
  - now apply clean_insert_hyphen_or_space.
  - now apply clean_whitespace_ends.
Qed.

(** C7 (format resilience) fails on the code for whitespace other than the
    space inside the key: the key of customer@email.com validates, and the
    same key with a line feed inserted after its third group does not. *)
Theorem interior_whitespace_changes_verdict :
  insert_char 14 0x0A (lit "PRLX-PLIF-EBCF-37BC-48F6-8")
  = lit "PRLX-PLIF-EBCF" ++ [0x0A] ++ lit "-37BC-48F6-8"
  /\ validate_license SECRET_KEY (lit "PRLX-PLIF-EBCF-37BC-48F6-8")
                      (lit "customer@email.com")
     = Return (Verdict.mk true (Some (lit "pro")) (Some (lit "LIFE"))
                          (Some (lit "customer@email.com")) None)
  /\ validate_license SECRET_KEY
       (insert_char 14 0x0A (lit "PRLX-PLIF-EBCF-37BC-48F6-8"))
       (lit "customer@email.com")
     = Return (invalid (lit "Invalid key: hash mismatch")).
Proof. repeat split; vm_compute; reflexivity. Qed.

(* ------------------------------------------------------------------ *)
(** *** Tampering with the digest *)

Lemma tier_code_char (tier code : str) :
  In (tier, code) tier_codes -> exists k, code = [k] /\ is_plain k = true.
Proof.
  intros H. apply tier_codes_cases in H.
  destruct H as [[_ ->] | [[_ ->] | [_ ->]]]; eexists; split; reflexivity.
Qed.

(** A cleaned key with the right prefix, a known tier code and a digest
    other than the expected one is a hash mismatch. *)
Lemma validate_license_mismatch
      (secret key email tier : str) (k x0 x1 x2 x3 : N) (hp h : str) :
  In (tier, [k]) tier_codes ->
  clean key = 0x50 :: 0x52 :: 0x4C :: 0x58 :: k :: x0 :: x1 :: x2 :: x3 :: hp ->
  (8 <= length hp)%nat ->
  hash_part_of secret email tier = Return h ->
  hp <> h ->
  validate_license secret key email
  = Return (invalid (lit "Invalid key: hash mismatch")).
Proof.
  intros Hin Hc Hl Eh Hne.
  rewrite (validate_license_cleaned secret key email tier [k] [x0; x1; x2; x3] hp
             Hin Hc eq_refl Hl).
  rewrite Eh. apply str_eqb_neq in Hne. now rewrite Hne.
Qed.

Ltac unhyphen_step :=
  first [ rewrite unhyphen_cons_hyphen
        | rewrite unhyphen_cons_space
        | rewrite unhyphen_cons_plain by (assumption || reflexivity)
        | rewrite unhyphen_cons_other by assumption ].

(** Cleans a key written out character by character, given for each
    symbolic character that it is plain, or how it compares. *)
Ltac clean_explicit :=
  rewrite clean_unhyphen; repeat unhyphen_step; rewrite unhyphen_nil;
  unfold strip; rewrite lstrip_keep by reflexivity;
  unfold rstrip; cbn [rev app];
  repeat first
    [ rewrite lstrip_drop by assumption
    | rewrite lstrip_keep by (assumption || (apply plain_not_isspace; assumption)) ];
  cbn [rev app].

Ltac explicit_key :=
  match goal with
  | |- validate_license _ ?K _ = _ =>
      let K' := eval cbv in K in change K with K'
  end.

Ltac tamper_case Hin Eh :=
  explicit_key;
  eapply validate_license_mismatch;
  [ exact Hin
  | clean_explicit; reflexivity
  | cbn [length]; lia
  | exact Eh
  | congruence ].

(** The twelve digest positions, one after the other. *)
Ltac tamper_all i Hne Hin Eh :=
  do 12 (destruct i as [|i];
         [ cbv in Hne; split; tamper_case Hin Eh |]).

Lemma tamper_positions (secret email tier : str) (k : N)
      (h0 h1 h2 h3 h4 h5 h6 h7 h8 h9 h10 h11 : N) (i : nat) (c : N) :
  In (tier, [k]) tier_codes -> is_plain k = true ->
  hash_part_of secret email tier
  = Return [h0; h1; h2; h3; h4; h5; h6; h7; h8; h9; h10; h11] ->
  Forall (fun c => is_plain c = true)
         [h0; h1; h2; h3; h4; h5; h6; h7; h8; h9; h10; h11] ->
  (9 <= i < 21)%nat ->
  let raw := lit "PRLX" ++ [k] ++ lit "LIFE"
             ++ [h0; h1; h2; h3; h4; h5; h6; h7; h8; h9; h10; h11] in
  nth i raw 0 <> c ->
  validate_license secret (set_char (i + i / 4) c (hyphenate raw)) email
  = Return (invalid (lit "Invalid key: hash mismatch"))
  /\ validate_license secret (set_char i c raw) email
     = Return (invalid (lit "Invalid key: hash mismatch")).
Proof.
  intros Hin Hk Eh Hh Hi raw Hne. subst raw.
  repeat match goal with
         | H : Forall _ (_ :: _) |- _ => inversion H; clear H; subst
         end.
  match goal with H : Forall _ [] |- _ => clear H end.
  do 9 (destruct i as [|i]; [lia|]).
  destruct (N.eq_dec c 0x2D) as [-> | N45].
  { tamper_all i Hne Hin Eh. lia. }
  destruct (N.eq_dec c 0x20) as [-> | N32].
  { tamper_all i Hne Hin Eh. lia. }
  apply N.eqb_neq in N45, N32.
  destruct (isspace c) eqn:Esp; tamper_all i Hne Hin Eh; lia.
Qed.

(** C5 (tamper sensitivity).  Take the key generated for an email and a tier
    among pro, team and enterprise, and a position [i] of the digest part of
    its cleaned form (9 to 20), which sits at index [i + i / 4] of the
    hyphenated key.  Changing that one character to any other character makes
    validation against the same email fail with the hash-mismatch reason,
    whether the change is made in the key as generated or in its cleaned
    form. *)
Theorem tamper_digest (secret email tier key : str) (i : nat) (c : N) :
  In tier tiers ->
  generate_license secret email tier = Return key ->
  (9 <= i < 21)%nat ->
  nth i (clean key) 0 <> c ->
  nth (i + i / 4) key 0 = nth i (clean key) 0
  /\ validate_license secret (set_char (i + i / 4) c key) email
     = Return (invalid (lit "Invalid key: hash mismatch"))
  /\ validate_license secret (set_char i c (clean key)) email
     = Return (invalid (lit "Invalid key: hash mismatch")).
Proof.
  intros Ht Hg Hi Hne. pose proof (lower_tiers _ Ht) as Hl.
  destruct (proj1 (tiers_codes tier) Ht) as [code Hin].
  assert (In (lower tier, code) tier_codes) as Hin' by now rewrite Hl.
  destruct (clean_generated _ _ _ _ _ Hin' Hg) as (h & Eh & Hk & Hc & Hlen & Hf).
  rewrite Hl in Eh. rewrite Hc in *. clear Hc. subst key.
  destruct (tier_code_char _ _ Hin) as (k & -> & Hpk).
  assert (Forall (fun c => is_plain c = true) h) as Hp.
  { eapply Forall_impl; [|exact Hf]. apply upper_hex_plain. }
  do 12 (destruct h as [|? h]; [discriminate Hlen|]).
  destruct h; [|discriminate Hlen].
  split.
  - clear - Hi. do 9 (destruct i as [|i]; [lia|]).
    do 12 (destruct i as [|i]; [reflexivity|]). lia.
  - eapply tamper_positions; eassumption.
Qed.

Lemma tamper_digest_witness :
  nth 25 (lit "PRLX-PLIF-EBCF-37BC-48F6-8") 0 = 0x38
  /\ validate_license SECRET_KEY (lit "PRLX-PLIF-EBCF-37BC-48F6-9")
                      (lit "customer@email.com")
     = Return (invalid (lit "Invalid key: hash mismatch")).
Proof.
  assert (In (lit "pro") tiers) as Ht by (left; reflexivity).
  assert (generate_license SECRET_KEY (lit "customer@email.com") (lit "pro")
          = Return (lit "PRLX-PLIF-EBCF-37BC-48F6-8")) as Hg
      by (vm_compute; reflexivity).
  assert (9 <= 20 < 21)%nat as Hi by lia.
  assert (nth 20 (clean (lit "PRLX-PLIF-EBCF-37BC-48F6-8")) 0 <> 0x39) as Hne
      by (vm_compute; discriminate).
  destruct (tamper_digest SECRET_KEY (lit "customer@email.com") (lit "pro")
              (lit "PRLX-PLIF-EBCF-37BC-48F6-8") 20 0x39 Ht Hg Hi Hne)
    as (Hn & Hv & _).
  split; [reflexivity | exact Hv].
Defined.

(* ------------------------------------------------------------------ *)
(** *** Further facts *)

(** The only exception the [try] block can raise is the codec's: the index
    and the table lookup are guarded by the checks before them. *)
Lemma validate_license_body_raises (secret license_key email : str) (e : exn) :
  validate_license_body secret license_key email = Raise e ->
  exists obj i j,
    e = UnicodeEncodeError (lit "utf-8") obj i j (lit "surrogates not allowed").
Proof.
  unfold validate_license_body. cbv zeta.
  destruct (negb (startswith _ _)); [discriminate|].
  destruct (len (clean license_key) <? 17)%nat eqn:El; [discriminate|].
  apply Nat.ltb_ge in El. unfold getitem.
  destruct (nth_error (clean license_key) 4) as [c|] eqn:En.
  2:{ apply nth_error_None in En. unfold len in El. lia. }
  cbn [bind]. unfold dict_contains, dict_getitem.
  destruct (dict_get tier_map [c]) as [tier|]; cbn [negb bind]; [|discriminate].
  rewrite hash_part_of_digest_part. unfold encode_utf8.
  destruct (find_surrogate _ _); cbn [bind].
  - intros [= <-]. eauto.
  - destruct (negb _); discriminate.
Qed.

Lemma lstrip_idempotent (s : str) : lstrip (lstrip s) = lstrip s.
Proof.
  induction s as [|c s IH]; [reflexivity|].
  cbn [lstrip]. destruct (isspace c) eqn:E; [exact IH|].
  now apply lstrip_keep.
Qed.

Lemma lstrip_app_keep (w : str) (a : N) :
  isspace a = false -> exists u, lstrip (w ++ [a]) = u ++ [a].
Proof.
  intros Ha. induction w as [|c w IH].
  - exists []. now apply lstrip_keep.
  - cbn [app lstrip]. destruct (isspace c); [exact IH|].
    now exists (c :: w).
Qed.

Lemma strip_idempotent (s : str) : strip (strip s) = strip s.
Proof.
  unfold strip.
  assert (lstrip (rstrip (lstrip s)) = rstrip (lstrip s)) as ->.
  { destruct (lstrip s) as [|a t] eqn:E; [reflexivity|].
    assert (isspace a = false) as Ha.
    { destruct (isspace a) eqn:Ha; [|reflexivity].
      pose proof (lstrip_idempotent s) as Hi. rewrite E in Hi.
      rewrite lstrip_drop in Hi by assumption.
      apply (f_equal (@length N)) in Hi. cbn [length] in Hi.
      assert (forall u, length (lstrip u) <= length u)%nat as Hle.
      { induction u as [|x u IHu]; cbn [lstrip length]; [lia|].
        destruct (isspace x); cbn [length]; lia. }
      specialize (Hle t). lia. }
    unfold rstrip. cbn [rev].
    destruct (lstrip_app_keep (rev t) a Ha) as [u ->].
    rewrite rev_app_distr. cbn [rev app]. now apply lstrip_keep. }
  unfold rstrip. now rewrite rev_involutive, lstrip_idempotent.
Qed.

Lemma lstrip_Forall (P : N -> Prop) (s : str) : Forall P s -> Forall P (lstrip s).
Proof.
  induction 1 as [|c s Hc Hs IH]; [constructor|].
  cbn [lstrip]. destruct (isspace c); auto.
Qed.

Lemma strip_Forall (P : N -> Prop) (s : str) : Forall P s -> Forall P (strip s).
Proof.
  intros H. unfold strip, rstrip.
  now apply Forall_rev, lstrip_Forall, Forall_rev, lstrip_Forall.
Qed.

Lemma unhyphen_free (s : str) :
  Forall (fun c => (c =? 0x2D) = false /\ (c =? 0x20) = false) (unhyphen s).
Proof.
  induction s as [|c s IH]; [constructor|].
  destruct (c =? 0x2D) eqn:E1.
  { apply N.eqb_eq in E1. subst c. now rewrite unhyphen_cons_hyphen. }
  destruct (c =? 0x20) eqn:E2.
  { apply N.eqb_eq in E2. subst c. now rewrite unhyphen_cons_space. }
  rewrite unhyphen_cons_other by assumption. now constructor.
Qed.

Lemma unhyphen_fixed (s : str) :
  Forall (fun c => (c =? 0x2D) = false /\ (c =? 0x20) = false) s ->
  unhyphen s = s.
Proof.
  induction 1 as [|c s [H1 H2] Hs IH]; [reflexivity|].
  now rewrite unhyphen_cons_other, IH.
Qed.

(** A cleaned key is a fixed point of cleaning. *)
Lemma clean_idempotent (s : str) : clean (clean s) = clean s.
Proof.
  rewrite !clean_unhyphen.
  rewrite (unhyphen_fixed (strip (unhyphen s)))
    by apply strip_Forall, unhyphen_free.
  apply strip_idempotent.
Qed.

(* ================================================================== *)
(** ** Further properties of the two functions *)

Lemma getitem_slice (s : str) (i : nat) :
  (i < len s)%nat -> getitem s i = Return (slice i (S i) s).
Proof.
  unfold getitem, slice, len. revert i.
  induction s as [|c s IH]; intros i Hi; [cbn in Hi; lia|].
  destruct i as [|i].
  - reflexivity.
  - cbn [nth_error skipn]. cbn [length] in Hi.
    rewrite (IH i) by lia.
    replace (S (S i) - S i)%nat with (S i - i)%nat by lia. reflexivity.
Qed.

(** The verdict as a function of the cleaned key: the checks in the order
    the source makes them. *)
Lemma validate_license_table (secret key email : str) :
  validate_license secret key email =
  Return
    (if negb (startswith (clean key) (lit "PRLX")) then
       invalid (lit "Invalid format: must start with PRLX")
     else if (len (clean key) <? 17)%nat then
       invalid (lit "Invalid format: key too short")
     else
       match dict_get tier_map (slice 4 5 (clean key)) with
       | None => invalid (lit "Invalid tier code")
       | Some tier =>
           match hash_part_of secret email tier with
           | Raise e => invalid (lit "Validation error: " ++ str_of_exn e)
           | Return h =>
               if str_eqb (slice_from 9 (clean key)) h
               then Verdict.mk true (Some tier) (Some (slice 5 9 (clean key)))
                               (Some email) None
               else invalid (lit "Invalid key: hash mismatch")
           end
       end).
Proof.
  unfold validate_license, validate_license_body. cbv zeta.
  destruct (negb (startswith _ _)); [reflexivity|].
  destruct (len (clean key) <? 17)%nat eqn:El; [reflexivity|].
  apply Nat.ltb_ge in El.
  rewrite getitem_slice by lia. cbn [bind].
  unfold dict_contains, dict_getitem.
  destruct (dict_get tier_map _) as [tier|]; cbn [negb bind]; [|reflexivity].
  destruct (hash_part_of _ _ _); cbn [bind try_except]; [|reflexivity].
  now destruct (str_eqb _ _).
Qed.

Lemma tier_map_cases (code tier : str) :
  dict_get tier_map code = Some tier -> In (tier, code) tier_codes.
Proof.
  unfold tier_map. cbn [dict_get].
  destruct (str_eqb code (lit "P")) eqn:E1.
  { apply str_eqb_eq in E1. intros [= <-]. subst. cbn. auto. }
  destruct (str_eqb code (lit "T")) eqn:E2.
  { apply str_eqb_eq in E2. intros [= <-]. subst. cbn. auto. }
  destruct (str_eqb code (lit "E")) eqn:E3.
  { apply str_eqb_eq in E3. intros [= <-]. subst. cbn. auto. }
  discriminate.
Qed.

Lemma tier_map_lookup (tier code : str) :
  In (tier, code) tier_codes -> dict_get tier_map code = Some tier.
Proof.
  intros H. apply tier_codes_cases in H.
  destruct H as [[-> ->] | [[-> ->] | [-> ->]]]; reflexivity.
Qed.

Lemma startswith_app (s p : str) :
  startswith s p = true -> exists rest, s = p ++ rest.
Proof.
  revert s. induction p as [|c p IH]; intros s H.
  - now exists s.
  - destruct s as [|d s]; [discriminate|]. cbn [startswith] in H.
    apply andb_true_iff in H as [Hc Hs]. apply N.eqb_eq in Hc. subst d.
    destruct (IH s Hs) as [rest ->]. now exists rest.
Qed.

Lemma startswith_prefix (p rest : str) : startswith (p ++ rest) p = true.
Proof.
  induction p as [|c p IH]; [now destruct rest|].
  cbn [app startswith]. now rewrite N.eqb_refl, IH.
Qed.

(** The parts of a cleaned key that passed the format and tier checks. *)
Lemma cleaned_key_parts (kc tier : str) :
  startswith kc (lit "PRLX") = true -> (17 <= len kc)%nat ->
  dict_get tier_map (slice 4 5 kc) = Some tier ->
  exists code,
    In (tier, code) tier_codes
    /\ kc = lit "PRLX" ++ code ++ slice 5 9 kc ++ slice_from 9 kc
    /\ length (slice 5 9 kc) = 4%nat.
Proof.
  intros Hs Hl Hd. exists (slice 4 5 kc).
  split; [now apply tier_map_cases|].
  apply startswith_app in Hs as [rest ->]. unfold len in Hl.
  do 5 (destruct rest as [|? rest]; [cbn in Hl; lia|]).
  do 3 (destruct rest as [|? rest]; [cbn in Hl; lia|]).
  split; reflexivity.
Qed.

Lemma hash_part_of_raises (secret email tier : str) :
  encodable (email ++ secret) = false ->
  exists obj i j,
    hash_part_of secret email tier
    = Raise (UnicodeEncodeError (lit "utf-8") obj i j
               (lit "surrogates not allowed")).
Proof.
  intros H. rewrite hash_part_of_digest_part.
  destruct (encode_utf8_raises
              (email ++ lit "|" ++ tier ++ lit "|" ++ secret)) as (i & j & E).
  { rewrite !encodable_app. rewrite encodable_app in H.
    apply andb_false_iff in H as [-> | ->]; [reflexivity|].
    now rewrite !andb_false_r. }
  rewrite E. cbn [bind]. eauto.
Qed.

Lemma tier_map_known (code : str) :
  In code [lit "P"; lit "T"; lit "E"] ->
  exists tier, dict_get tier_map code = Some tier /\ encodable tier = true.
Proof.
  intros [<- | [<- | [<- | []]]]; eexists; split; reflexivity.
Qed.

(** X1 (accepted keys).  [validate_license] returns the valid verdict with
    tier [tier] and expiry [x] exactly when the cleaned key is PRLX, the
    code of [tier], the four characters [x] and the digest part of the email
    for [tier]; the verdict carries the email it was given. *)
Theorem validate_license_accepts (secret key email tier x email' : str) :
  validate_license secret key email
  = Return (Verdict.mk true (Some tier) (Some x) (Some email') None)
  <-> email' = email /\ length x = 4%nat
      /\ exists code h,
           In (tier, code) tier_codes
           /\ hash_part_of secret email tier = Return h
           /\ clean key = lit "PRLX" ++ code ++ x ++ h.
Proof.
  split.
  - rewrite validate_license_table.
    destruct (startswith (clean key) (lit "PRLX")) eqn:Es; cbn [negb];
      [|discriminate].
    destruct (len (clean key) <? 17)%nat eqn:El; [discriminate|].
    apply Nat.ltb_ge in El.
    destruct (dict_get tier_map _) as [t|] eqn:Ed; [|discriminate].
    destruct (hash_part_of secret email t) as [h|] eqn:Eh; [|discriminate].
    destruct (str_eqb _ h) eqn:Eq; [|discriminate].
    intros [= -> <- <-]. apply str_eqb_eq in Eq.
    destruct (cleaned_key_parts _ _ Es El Ed) as (code & Hin & Hk & Hx).
    repeat split; auto. exists code, h. repeat split; auto.
    rewrite <- Eq. exact Hk.
  - intros (-> & Hx & code & h & Hin & Eh & Hc).
    destruct (hash_part_shape _ _ _ _ Eh) as [Hl _].
    rewrite (validate_license_cleaned secret key email tier code x h
               Hin Hc Hx) by lia.
    now rewrite Eh, str_eqb_refl.
Qed.

(** X2 (length of accepted keys).  A key that validates has a cleaned form
    of exactly 21 characters, a tier among pro, team and enterprise and a
    four-character expiry: cleaned keys of 17 to 20 characters, the
    documented format PRLX-XXXX-XXXX-XXXX-XXXX among them, pass the length
    check and never validate. *)
Theorem accepted_key_length (secret key email : str) (v : Verdict.t) :
  validate_license secret key email = Return v ->
  Verdict.valid v = true ->
  len (clean key) = 21%nat
  /\ exists tier x,
       In tier tiers /\ len x = 4%nat
       /\ v = Verdict.mk true (Some tier) (Some x) (Some email) None.
Proof.
  rewrite validate_license_table.
  destruct (startswith (clean key) (lit "PRLX")) eqn:Es; cbn [negb];
    [|intros [= <-]; discriminate].
  destruct (len (clean key) <? 17)%nat eqn:El; [intros [= <-]; discriminate|].
  apply Nat.ltb_ge in El.
  destruct (dict_get tier_map _) as [t|] eqn:Ed; [|intros [= <-]; discriminate].
  destruct (hash_part_of secret email t) as [h|] eqn:Eh;
    [|intros [= <-]; discriminate].
  destruct (str_eqb _ h) eqn:Eq; [|intros [= <-]; discriminate].
  intros [= <-] _. apply str_eqb_eq in Eq.
  destruct (cleaned_key_parts _ _ Es El Ed) as (code & Hin & Hk & Hx).
  destruct (hash_part_shape _ _ _ _ Eh) as [Hl _].
  split.
  - rewrite Hk. unfold len. rewrite !length_app, Hx, Eq, Hl.
    destruct (tier_code_char _ _ Hin) as (k & -> & _). reflexivity.
  - exists t, (slice 5 9 (clean key)). repeat split; auto.
    apply tiers_codes. now exists code.
Qed.

Lemma accepted_key_length_witness :
  len (clean (lit "PRLX-PLIF-EBCF-37BC-48F6-8")) = 21%nat
  /\ exists tier x,
       In tier tiers /\ len x = 4%nat
       /\ Verdict.mk true (Some (lit "pro")) (Some (lit "LIFE"))
                     (Some (lit "customer@email.com")) None
          = Verdict.mk true (Some tier) (Some x)
                       (Some (lit "customer@email.com")) None.
Proof.
  apply (accepted_key_length SECRET_KEY (lit "PRLX-PLIF-EBCF-37BC-48F6-8")
           (lit "customer@email.com")).
  - vm_compute. reflexivity.
  - reflexivity.
Defined.

(** X3 (the reasons, in order).  The verdict is fixed by the first check
    that fails: the prefix, then the length, then the tier code, then the
    encoding of the hash input, then the digest.  A wrong tier code is
    reported before the email is looked at, and the only error the [try]
    block ever reports is the codec's. *)
Theorem validate_license_reasons (secret key email : str) :
  (startswith (clean key) (lit "PRLX") = false ->
   validate_license secret key email
   = Return (invalid (lit "Invalid format: must start with PRLX")))
  /\ (startswith (clean key) (lit "PRLX") = true ->
      (len (clean key) < 17)%nat ->
      validate_license secret key email
      = Return (invalid (lit "Invalid format: key too short")))
  /\ (startswith (clean key) (lit "PRLX") = true ->
      (17 <= len (clean key))%nat ->
      ~ In (slice 4 5 (clean key)) [lit "P"; lit "T"; lit "E"] ->
      validate_license secret key email
      = Return (invalid (lit "Invalid tier code")))
  /\ (startswith (clean key) (lit "PRLX") = true ->
      (17 <= len (clean key))%nat ->
      In (slice 4 5 (clean key)) [lit "P"; lit "T"; lit "E"] ->
      (encodable (email ++ secret) = false ->
       exists obj i j,
         validate_license secret key email
         = Return (invalid (lit "Validation error: "
                            ++ str_of_exn
                                 (UnicodeEncodeError (lit "utf-8") obj i j
                                    (lit "surrogates not allowed")))))
      /\ (encodable (email ++ secret) = true ->
          exists tier h,
            hash_part_of secret email tier = Return h
            /\ validate_license secret key email
               = Return (if str_eqb (slice_from 9 (clean key)) h
                         then Verdict.mk true (Some tier)
                                (Some (slice 5 9 (clean key))) (Some email) None
                         else invalid (lit "Invalid key: hash mismatch")))).
Proof.
  rewrite validate_license_table.
  refine (conj _ (conj _ (conj _ _))).
  - now intros ->.
  - intros -> Hl. apply Nat.ltb_lt in Hl. now rewrite Hl.
  - intros -> Hl Hn. apply Nat.ltb_ge in Hl. rewrite Hl. cbn [negb].
    destruct (dict_get tier_map _) as [t|] eqn:Ed; [|reflexivity].
    apply tier_map_cases, tier_codes_cases in Ed.
    exfalso. apply Hn. cbn [In].
    destruct Ed as [[_ ->] | [[_ ->] | [_ ->]]]; auto.
  - intros -> Hl Hin. apply Nat.ltb_ge in Hl. rewrite Hl. cbn [negb].
    destruct (tier_map_known _ Hin) as (tier & -> & Ht).
    split; intros He.
    + destruct (hash_part_of_raises secret email tier He)
        as (obj & i & j & ->).
      eauto.
    + destruct (hash_part_of_returns secret email tier) as [h Eh].
      { rewrite !encodable_app in *. apply andb_true_iff in He as [-> ->].
        now rewrite Ht. }
      exists tier, h. split; [exact Eh|]. now rewrite Eh.
Qed.

Lemma In_lstrip (c : N) (s : str) : In c (lstrip s) -> In c s.
Proof.
  induction s as [|d s IH]; [auto|].
  cbn [lstrip]. destruct (isspace d); [right; auto | auto].
Qed.

Lemma In_strip (c : N) (s : str) : In c (strip s) -> In c s.
Proof.
  unfold strip, rstrip. intros H.
  apply In_lstrip. apply in_rev. apply In_lstrip. now apply in_rev in H.
Qed.

Lemma In_replace_nil (old c : N) (s : str) : In c (replace old [] s) -> In c s.
Proof.
  unfold replace. intros H. apply in_flat_map in H as (d & Hd & Hc).
  destruct (d =? old); [destruct Hc|].
  destruct Hc as [<- | []]. exact Hd.
Qed.

Lemma In_clean (c : N) (s : str) : In c (clean s) -> In c s.
Proof.
  unfold clean. intros H.
  now apply In_strip, In_replace_nil, In_replace_nil in H.
Qed.

Lemma lower_no_upper (c : N) (s : str) :
  In c (lower s) -> ~ (0x41 <= c <= 0x5A).
Proof.
  unfold lower. intros H. apply in_flat_map in H as (d & _ & Hc).
  unfold lower_char in Hc.
  destruct ((0x41 <=? d) && (d <=? 0x5A)) eqn:E.
  - destruct Hc as [<- | []]. to_prop. lia.
  - destruct (d =? 0x130); [destruct Hc as [<- | [<- | []]]; lia|].
    destruct (d =? 0x212A); [destruct Hc as [<- | []]; lia|].
    destruct Hc as [<- | []]. to_prop. lia.
Qed.

(** X4 (keys are case-sensitive).  Whatever the key, its lowercased form is
    rejected as not starting with PRLX: a key typed in lowercase never
    validates. *)
Theorem lowercase_key_rejected (secret key email : str) :
  validate_license secret (lower key) email
  = Return (invalid (lit "Invalid format: must start with PRLX")).
Proof.
  rewrite validate_license_table.
  destruct (startswith (clean (lower key)) (lit "PRLX")) eqn:Es;
    [|reflexivity].
  exfalso. apply startswith_app in Es as [rest E].
  assert (In 0x50 (lower key)) as Hin.
  { apply In_clean. rewrite E. left. reflexivity. }
  apply lower_no_upper in Hin. lia.
Qed.

Lemma unhyphen_filter (s : str) : unhyphen s = filter kept s.
Proof.
  induction s as [|c s IH]; [reflexivity|].
  cbn [filter]. unfold kept at 1.
  destruct (c =? 0x2D) eqn:E1.
  { apply N.eqb_eq in E1. subst c. now rewrite unhyphen_cons_hyphen. }
  destruct (c =? 0x20) eqn:E2.
  { apply N.eqb_eq in E2. subst c. now rewrite unhyphen_cons_space. }
  rewrite unhyphen_cons_other by assumption. cbn [negb andb]. now rewrite IH.
Qed.

(** X5 (what formatting is forgiven).  Two keys that agree once their
    hyphens and spaces are dropped get the same verdict, and so does a key
    with any whitespace put before or after it. *)
Theorem format_forgiven (secret email k1 k2 w1 w2 : str) :
  filter kept k1 = filter kept k2 ->
  Forall (fun c => isspace c = true) w1 ->
  Forall (fun c => isspace c = true) w2 ->
  validate_license secret (w1 ++ k1 ++ w2) email
  = validate_license secret k2 email.
Proof.
  intros Hk H1 H2. apply validate_license_clean_eq.
  rewrite clean_whitespace_ends by assumption.
  now rewrite !clean_unhyphen, !unhyphen_filter, Hk.
Qed.

Lemma format_forgiven_witness :
  validate_license SECRET_KEY
    ((lit "  " ++ [0x09]) ++ lit "PRLXP LIFE BCF37BC48F68" ++ [0x0D; 0x0A])
    (lit "customer@email.com")
  = validate_license SECRET_KEY (lit "PRLX-PLIF-EBCF-37BC-48F6-8")
                     (lit "customer@email.com").
Proof.
  assert (filter kept (lit "PRLXP LIFE BCF37BC48F68")
          = filter kept (lit "PRLX-PLIF-EBCF-37BC-48F6-8")) as Hk
      by (vm_compute; reflexivity).
  assert (Forall (fun c => isspace c = true) (lit "  " ++ [0x09])) as H1
      by (repeat constructor).
  assert (Forall (fun c => isspace c = true) [0x0D; 0x0A]) as H2
      by (repeat constructor).
  exact (format_forgiven SECRET_KEY (lit "customer@email.com") _ _ _ _
           Hk H1 H2).
Defined.

(** X6 (cleaning once is enough).  Cleaning a cleaned key changes nothing,
    and the cleaned key gets the verdict of the key it came from. *)
Theorem cleaned_key_same_verdict (secret key email : str) :
  clean (clean key) = clean key
  /\ validate_license secret (clean key) email
     = validate_license secret key email.
Proof.
  split; [apply clean_idempotent|].
  apply validate_license_clean_eq, clean_idempotent.
Qed.

Lemma generate_license_returns_inv (secret email tier key : str) :
  generate_license secret email tier = Return key -> In (lower tier) tiers.
Proof.
  unfold generate_license. cbv zeta.
  destruct (dict_contains tier_codes (lower tier)) eqn:E; [|discriminate].
  intros _. now apply dict_contains_tier_codes.
Qed.

(** X7 (outcomes of generation).  [generate_license] ends in exactly one of
    three ways: the invalid-tier error when the lowercased tier is unknown;
    otherwise the codec's error when email or secret holds a lone surrogate;
    otherwise a key.  The tier is checked first. *)
Theorem generate_license_outcome (secret email tier : str) :
  (~ In (lower tier) tiers
   /\ generate_license secret email tier = Raise (InvalidTier tier))
  \/ (In (lower tier) tiers /\ encodable (email ++ secret) = false
      /\ exists obj i j,
           generate_license secret email tier
           = Raise (UnicodeEncodeError (lit "utf-8") obj i j
                      (lit "surrogates not allowed")))
  \/ (In (lower tier) tiers /\ encodable (email ++ secret) = true
      /\ exists key, generate_license secret email tier = Return key).
Proof.
  destruct (dict_contains tier_codes (lower tier)) eqn:E.
  - apply dict_contains_tier_codes in E. right.
    destruct (proj1 (tiers_codes _) E) as [code Hin].
    rewrite (generate_license_known secret email tier code Hin).
    destruct (encodable (email ++ secret)) eqn:He.
    + right. repeat split; auto.
      destruct (hash_part_of_returns secret email (lower tier)) as [h ->].
      * rewrite !encodable_app in *. apply andb_true_iff in He as [-> ->].
        destruct E as [<- | [<- | [<- | []]]]; reflexivity.
      * cbn [bind]. eauto.
    + left. repeat split; auto.
      destruct (hash_part_of_raises secret email (lower tier) He)
        as (obj & i & j & ->).
      cbn [bind]. eauto.
  - left. split.
    + intros H. apply dict_contains_tier_codes in H. congruence.
    + unfold generate_license. cbv zeta. now rewrite E.
Qed.

(** X8 (spelling of the tier).  Two tier arguments with the same lowercase
    form, one of pro, team and enterprise, give the same result: the letter
    case of the tier does not reach the key. *)
Theorem tier_case_ignored (secret email t1 t2 : str) :
  lower t1 = lower t2 -> In (lower t1) tiers ->
  generate_license secret email t1 = generate_license secret email t2.
Proof.
  intros E H. destruct (proj1 (tiers_codes _) H) as [code Hin].
  rewrite (generate_license_known secret email t1 code Hin).
  rewrite E in Hin.
  rewrite (generate_license_known secret email t2 code Hin).
  now rewrite E.
Qed.

Lemma tier_case_ignored_witness :
  generate_license SECRET_KEY (lit "a@b.com") (lit "TEAM")
  = generate_license SECRET_KEY (lit "a@b.com") (lit "Team").
Proof.
  apply tier_case_ignored.
  - reflexivity.
  - right; left; reflexivity.
Defined.

Lemma tier_codes_get (tier code : str) :
  dict_get tier_codes tier = Some code <-> In (tier, code) tier_codes.
Proof.
  split.
  - unfold tier_codes. cbn [dict_get].
    destruct (str_eqb tier (lit "pro")) eqn:E1.
    { apply str_eqb_eq in E1. intros [= <-]. subst. cbn. auto. }
    destruct (str_eqb tier (lit "team")) eqn:E2.
    { apply str_eqb_eq in E2. intros [= <-]. subst. cbn. auto. }
    destruct (str_eqb tier (lit "enterprise")) eqn:E3.
    { apply str_eqb_eq in E3. intros [= <-]. subst. cbn. auto. }
    discriminate.
  - intros H. apply tier_codes_cases in H.
    destruct H as [[-> ->] | [[-> ->] | [-> ->]]]; reflexivity.
Qed.

(** X9 (the two tier tables).  [tier_map] is the inverse of [tier_codes]: a
    tier has code [code] in the generator's table exactly when [code] decodes
    to that tier in the validator's. *)
Theorem tier_tables_inverse (tier code : str) :
  dict_get tier_codes tier = Some code <-> dict_get tier_map code = Some tier.
Proof.
  rewrite tier_codes_get. split.
  - apply tier_map_lookup.
  - apply tier_map_cases.
Qed.

(** X10 (hyphenation and cleaning).  For a raw key of any length, cleaning
    the hyphen-joined four-character segments gives what cleaning the raw key
    gives; a raw key free of hyphens and whitespace comes back unchanged. *)
Theorem clean_segments (s : str) :
  clean (join (lit "-")
           (map (fun i => slice i (i + 4) s) (range0 (len s) 4)))
  = clean s
  /\ (Forall (fun c => is_plain c = true) s ->
      clean (join (lit "-")
               (map (fun i => slice i (i + 4) s) (range0 (len s) 4)))
      = s).
Proof.
  rewrite segments_chunks4. fold (hyphenate s). rewrite clean_hyphenate.
  split; [reflexivity|]. apply clean_plain.
Qed.

Lemma upper_hex_alnum (c : N) : is_upper_hex c = true -> is_upper_alnum c = true.
Proof.
  unfold is_upper_hex, is_upper_alnum. intros H. to_prop. lia.
Qed.

(** X11 (shape of a generated key).  Every key [generate_license] returns
    has 26 characters: hyphens exactly at the indices 4, 9, 14, 19 and 24,
    an uppercase letter or a digit everywhere else, PRLX in front and a last
    group of a single character. *)
Theorem generated_key_shape (secret email tier key : str) :
  generate_license secret email tier = Return key ->
  len key = 26%nat
  /\ startswith key (lit "PRLX-") = true
  /\ forall i, (i < 26)%nat ->
       if (i mod 5 =? 4)%nat
       then nth i key 0 = 0x2D
       else is_upper_alnum (nth i key 0) = true.
Proof.
  intros Hg. pose proof (generate_license_returns_inv _ _ _ _ Hg) as Ht.
  destruct (proj1 (tiers_codes _) Ht) as [code Hin].
  destruct (clean_generated _ _ _ _ _ Hin Hg) as (h & _ & -> & _ & Hlen & Hf).
  assert (Forall (fun c => is_upper_alnum c = true) h) as Ha.
  { eapply Forall_impl; [|exact Hf]. apply upper_hex_alnum. }
  clear Hf Hg.
  do 12 (destruct h as [|? h]; [discriminate Hlen|]).
  destruct h; [|discriminate Hlen].
  repeat match goal with
         | H : Forall _ (_ :: _) |- _ => inversion H; clear H; subst
         end.
  apply tier_codes_cases in Hin.
  destruct Hin as [[_ ->] | [[_ ->] | [_ ->]]];
    (split; [reflexivity|]); (split; [reflexivity|]);
    intros i Hi;
    do 26 (destruct i as [|i]; [cbn; solve [reflexivity | assumption]|]);
    lia.
Qed.

Lemma generated_key_shape_witness :
  len (lit "PRLX-PLIF-EBCF-37BC-48F6-8") = 26%nat
  /\ startswith (lit "PRLX-PLIF-EBCF-37BC-48F6-8") (lit "PRLX-") = true
  /\ forall i, (i < 26)%nat ->
       if (i mod 5 =? 4)%nat
       then nth i (lit "PRLX-PLIF-EBCF-37BC-48F6-8") 0 = 0x2D
       else is_upper_alnum (nth i (lit "PRLX-PLIF-EBCF-37BC-48F6-8") 0) = true.
Proof.
  apply (generated_key_shape SECRET_KEY (lit "customer@email.com") (lit "pro")).
  vm_compute. reflexivity.
Defined.

(* ================================================================== *)
(** ** The script *)

(** Runs of the script on the shipped secret. *)
Example run_pro :
  Script.run SECRET_KEY [lit "generate-license.py"; lit "a@b.com"; lit "Pro"]
  = (O, Script.unlines
          (Script.success_lines (lit "a@b.com") (lit "Pro") (lit "pro")
             (lit "PRLX-PLIF-E82D-3BB6-8315-3"))).
Proof. vm_compute. reflexivity. Qed.

Example run_gold :
  Script.run SECRET_KEY [lit "generate-license.py"; lit "a@b.com"; lit "gold"]
  = (1%nat,
     Script.unlines
       [lit "Error: Invalid tier: gold. Must be pro, team, or enterprise"]).
Proof. vm_compute. reflexivity. Qed.

Example run_surrogate_email :
  Script.run SECRET_KEY
    [lit "generate-license.py"; lit "a@b." ++ [0xDCFF]; lit "pro"]
  = (1%nat,
     Script.unlines
       [lit "Error: 'utf-8' codec can't encode character '\udcff' in position 4: surrogates not allowed"]).
Proof. vm_compute. reflexivity. Qed.

Lemma print_ok (s out : str) :
  encodable s = true ->
  Script.print s out = (Script.Normal tt, out ++ s ++ [0x0A]).
Proof. intros H. unfold Script.print. now rewrite encode_utf8_returns. Qed.

Lemma print_cases (s out : str) :
  Script.print s out = (Script.Normal tt, out ++ s ++ [0x0A])
  \/ exists i j,
       Script.print s out
       = (Script.Raised (UnicodeEncodeError (lit "utf-8") s i j
                           (lit "surrogates not allowed")), out).
Proof.
  destruct (encodable s) eqn:E.
  - left. now apply print_ok.
  - right. unfold Script.print.
    destruct (encode_utf8_raises s E) as (i & j & ->). eauto.
Qed.

Lemma bind_print_ok {B : Type} (s : str) (k : unit -> Script.IO B) (out : str) :
  encodable s = true ->
  Script.bind (Script.print s) k out = k tt (out ++ s ++ [0x0A]).
Proof. intros H. unfold Script.bind. now rewrite print_ok. Qed.

Lemma print_usage_ok (out : str) :
  Script.print_usage out
  = (Script.Normal tt, out ++ Script.unlines Script.usage_lines).
Proof.
  unfold Script.print_usage.
  repeat (rewrite bind_print_ok by reflexivity).
  rewrite print_ok by reflexivity.
  f_equal. repeat rewrite <- app_assoc. reflexivity.
Qed.

Lemma bind_assoc {A B C : Type} (m : Script.IO A) (k1 : A -> Script.IO B)
      (k2 : B -> Script.IO C) (out : str) :
  Script.bind (Script.bind m k1) k2 out
  = Script.bind m (fun a => Script.bind (k1 a) k2) out.
Proof.
  unfold Script.bind. destruct (m out) as [[a | e | n] out']; reflexivity.
Qed.

Lemma bind_lift_return {A B : Type} (a : A) (k : A -> Script.IO B) (out : str) :
  Script.bind (Script.lift (Return a)) k out = k a out.
Proof. reflexivity. Qed.

Lemma encode_utf8_returns_inv (s : str) (b : bytes) :
  encode_utf8 s = Return b -> encodable s = true.
Proof.
  intros H. destruct (encodable s) eqn:E; [reflexivity|].
  destruct (encode_utf8_raises s E) as (i & j & E'). congruence.
Qed.

Lemma encodable_below (s : str) :
  Forall (fun c => c < 0xD800) s -> encodable s = true.
Proof.
  induction 1 as [|c s Hc Hs IH]; [reflexivity|].
  cbn [encodable forallb]. fold (encodable s). rewrite IH.
  unfold is_surrogate. destruct (N.leb_spec 0xD800 c); [lia | reflexivity].
Qed.

(** A tier accepted by [generate_license] is made of ASCII letters. *)
Lemma lower_letters_inv (s t : str) :
  lower s = t ->
  Forall (fun x => 0x61 <= x <= 0x7A /\ x <> 0x6B) t ->
  Forall (fun c => 0x41 <= c <= 0x5A \/ 0x61 <= c <= 0x7A) s.
Proof.
  revert t. induction s as [|c s IH]; intros t E Ht; [constructor|].
  change (lower (c :: s)) with (lower_char c ++ lower s) in E.
  unfold lower_char in E.
  destruct ((0x41 <=? c) && (c <=? 0x5A)) eqn:E1.
  - subst t. inversion Ht; subst. constructor; [to_prop; lia | eauto].
  - destruct (c =? 0x130) eqn:E2.
    { subst t. inversion Ht as [|? ? _ Ht']; subst.
      inversion Ht' as [|? ? [H _] _]; subst. lia. }
    destruct (c =? 0x212A) eqn:E3.
    { subst t. inversion Ht as [|? ? [_ H] _]; subst. congruence. }
    subst t. inversion Ht as [|? ? [H _] Ht']; subst.
    constructor; [lia | eauto].
Qed.

Lemma accepted_tier_letters (tier : str) :
  In (lower tier) tiers ->
  Forall (fun c => 0x41 <= c <= 0x5A \/ 0x61 <= c <= 0x7A) tier.
Proof.
  intros H. apply (lower_letters_inv tier (lower tier) eq_refl).
  destruct H as [<- | [<- | [<- | []]]];
    apply Forall_forall; intros x Hx; vm_compute in Hx;
    repeat (destruct Hx as [<- | Hx]; [split; [lia | discriminate]|]);
    destruct Hx.
Qed.

Lemma accepted_tier_upper_encodable (tier : str) :
  In (lower tier) tiers -> encodable (upper tier) = true.
Proof.
  intros H. apply encodable_below. unfold upper. apply Forall_map.
  eapply Forall_impl; [|apply accepted_tier_letters; exact H].
  intros c Hc. cbv beta in *. unfold upper_char.
  destruct ((0x61 <=? c) && (c <=? 0x7A)); lia.
Qed.

Lemma Forall_join (P : N -> Prop) (sep : str) (parts : list str) :
  Forall P sep -> Forall (Forall P) parts -> Forall P (join sep parts).
Proof.
  intros Hs Hp. induction Hp as [|p rest Hp Hrest IH]; [constructor|].
  destruct rest as [|q rest]; [exact Hp|].
  change (join sep (p :: q :: rest)) with (p ++ sep ++ join sep (q :: rest)).
  apply Forall_app; split; [exact Hp|]. apply Forall_app; split; auto.
Qed.

Lemma Forall_chunks4 (P : N -> Prop) (s : str) :
  Forall P s -> Forall (Forall P) (chunks4 s).
Proof.
  induction s as [| a | a b | a b c | a b c d rest IH] using str_ind4;
    intros H; cbn [chunks4].
  - constructor.
  - repeat constructor; now inversion H.
  - constructor; [exact H | constructor].
  - constructor; [exact H | constructor].
  - inversion H as [|? ? Ha H1]; subst. inversion H1 as [|? ? Hb H2]; subst.
    inversion H2 as [|? ? Hc H3]; subst. inversion H3 as [|? ? Hd H4]; subst.
    constructor; [repeat constructor; assumption | auto].
Qed.

Lemma plain_below (c : N) : is_upper_hex c = true -> c < 0xD800.
Proof. unfold is_upper_hex. intros H. to_prop. lia. Qed.

Lemma generated_key_encodable (secret email tier key : str) :
  generate_license secret email tier = Return key -> encodable key = true.
Proof.
  intros Hg. pose proof (generate_license_returns_inv _ _ _ _ Hg) as Ht.
  destruct (proj1 (tiers_codes _) Ht) as [code Hin].
  destruct (clean_generated _ _ _ _ _ Hin Hg) as (h & _ & -> & _ & _ & Hf).
  apply encodable_below. apply Forall_join; [repeat constructor; lia|].
  apply Forall_chunks4.
  assert (Forall (fun c => c < 0xD800) h) as Hh.
  { eapply Forall_impl; [|exact Hf]. apply plain_below. }
  apply tier_codes_cases in Hin.
  destruct Hin as [[_ ->] | [[_ ->] | [_ ->]]];
    repeat (apply Forall_cons; [reflexivity|]); exact Hh.
Qed.

Lemma generated_email_encodable (secret email tier key : str) :
  generate_license secret email tier = Return key -> encodable email = true.
Proof.
  intros Hg. pose proof (generate_license_returns_inv _ _ _ _ Hg) as Ht.
  destruct (proj1 (tiers_codes _) Ht) as [code Hin].
  rewrite (generate_license_known _ _ _ _ Hin), hash_part_of_digest_part in Hg.
  destruct (encode_utf8 _) as [b|] eqn:E; [|discriminate Hg].
  apply encode_utf8_returns_inv in E. rewrite encodable_app in E.
  now apply andb_true_iff in E as [E _].
Qed.

(** The round trip for a tier typed in any letter case. *)
Lemma validate_generated (secret email tier key : str) :
  generate_license secret email tier = Return key ->
  validate_license secret key email
  = Return (Verdict.mk true (Some (lower tier)) (Some (lit "LIFE"))
                       (Some email) None).
Proof.
  intros Hg. pose proof (generate_license_returns_inv _ _ _ _ Hg) as Ht.
  destruct (proj1 (tiers_codes _) Ht) as [code Hin].
  destruct (clean_generated _ _ _ _ _ Hin Hg) as (h & Eh & _ & Hc & Hlen & _).
  rewrite (validate_license_cleaned secret key email (lower tier) code
             (lit "LIFE") h Hin Hc); [| reflexivity | lia].
  now rewrite Eh, str_eqb_refl.
Qed.

Lemma generate_license_raises (secret email tier : str) (e : exn) :
  generate_license secret email tier = Raise e -> Script.is_ValueError e = true.
Proof.
  unfold generate_license. cbv zeta.
  destruct (dict_contains tier_codes (lower tier)) eqn:E; cbn [negb].
  - apply dict_contains_tier_codes, tiers_codes in E as [code Hin].
    destruct (tier_codes_lookup _ _ Hin) as [_ ->]. cbn [bind].
    rewrite hash_part_of_digest_part. unfold encode_utf8.
    destruct (find_surrogate _ _); cbn [bind]; [|discriminate].
    now intros [= <-].
  - now intros [= <-].
Qed.

Ltac enc :=
  rewrite ?encodable_app;
  repeat (apply andb_true_intro; split);
  solve [reflexivity | assumption].

(** What the [try] block of [main] writes once a key has been generated. *)
Lemma main_try_success (secret email tier key out : str) :
  generate_license secret email tier = Return key ->
  Script.main_try secret email tier out
  = (Script.Normal tt,
     out ++ Script.unlines
              (Script.success_lines email tier (lower tier) key)).
Proof.
  intros Hg.
  pose proof (generate_license_returns_inv _ _ _ _ Hg) as Ht.
  pose proof (generated_email_encodable _ _ _ _ Hg) as He.
  pose proof (generated_key_encodable _ _ _ _ Hg) as Hk.
  pose proof (accepted_tier_upper_encodable _ Ht) as Hu.
  assert (encodable (lower tier) = true) as Hl
      by (destruct Ht as [<- | [<- | [<- | []]]]; reflexivity).
  unfold Script.main_try. rewrite Hg, bind_lift_return.
  repeat (rewrite bind_print_ok by enc).
  rewrite (validate_generated _ _ _ _ Hg), bind_lift_return.
  rewrite bind_print_ok by enc.
  cbn [Verdict.valid Verdict.tier Verdict.expiry Script.field_getitem].
  repeat first [ rewrite bind_assoc
               | rewrite bind_lift_return
               | rewrite bind_print_ok by enc ].
  rewrite print_ok by enc.
  f_equal. cbn [Script.unlines Script.success_lines flat_map].
  repeat rewrite <- app_assoc. reflexivity.
Qed.

Lemma list_contains_In (l : list str) (x : str) :
  Script.list_contains l x = true <-> In x l.
Proof.
  unfold Script.list_contains. rewrite existsb_exists. split.
  - intros (y & Hy & E). apply str_eqb_eq in E. now subst.
  - intros H. exists x. split; [exact H | apply str_eqb_refl].
Qed.

Lemma contains_char_In (c : N) (s : str) :
  Script.contains_char c s = true <-> In c s.
Proof.
  unfold Script.contains_char. rewrite existsb_exists. split.
  - intros (y & Hy & E). apply N.eqb_eq in E. now subst.
  - intros H. exists c. split; [exact H | apply N.eqb_refl].
Qed.

Lemma help_requested_spec (argv : list str) :
  Script.help_requested argv = true
  <-> exists prog a rest, argv = prog :: a :: rest /\ In a Script.help_flags.
Proof.
  unfold Script.help_requested. split.
  - destruct argv as [|prog [|a rest]]; try discriminate.
    cbn [length Nat.ltb Nat.leb nth_error andb]. intros H.
    apply list_contains_In in H. eauto.
  - intros (prog & a & rest & -> & H).
    cbn [length Nat.ltb Nat.leb nth_error andb]. now apply list_contains_In.
Qed.

Lemma help_flag_no_at (a : str) : In a Script.help_flags -> ~ In 0x40 a.
Proof.
  intros [<- | [<- | [<- | []]]] H; vm_compute in H;
    repeat (destruct H as [H | H]; [discriminate H|]); exact H.
Qed.

Lemma run_help (secret : str) (argv : list str) :
  Script.help_requested argv = true ->
  Script.run secret argv = (O, Script.unlines Script.usage_lines).
Proof.
  intros H. unfold Script.run, Script.main. rewrite H.
  unfold Script.bind. now rewrite print_usage_ok.
Qed.

Lemma run_missing (secret : str) (argv : list str) :
  Script.help_requested argv = false -> (length argv < 3)%nat ->
  Script.run secret argv
  = (1%nat,
     Script.unlines
       ([lit "Error: Missing required arguments"; []] ++ Script.usage_lines)).
Proof.
  intros H Hl. apply Nat.ltb_lt in Hl.
  unfold Script.run, Script.main. rewrite H, Hl.
  unfold Script.bind, Script.ret.
  rewrite print_ok by reflexivity. now rewrite print_usage_ok.
Qed.

(** The script past the argument checks. *)
Lemma run_three (secret prog email tier : str) (rest : list str) :
  Script.help_requested (prog :: email :: tier :: rest) = false ->
  Script.run secret (prog :: email :: tier :: rest)
  = match
      Script.bind
        (if negb (Script.contains_char 0x40 email)
            || negb (Script.contains_char 0x2E email)
         then Script.bind
                (Script.print (lit "Error: Invalid email format: " ++ email))
                (fun _ => Script.sys_exit 1)
         else Script.ret tt)
        (fun _ =>
           Script.try_except2 (Script.main_try secret email tier)
             (fun e => Script.bind (Script.print (lit "Error: " ++ str_of_exn e))
                         (fun _ => Script.sys_exit 1))
             (fun e =>
                Script.bind
                  (Script.print (lit "Unexpected error: " ++ str_of_exn e))
                  (fun _ => Script.sys_exit 1))) []
    with
    | (Script.Normal _, out) => (O, out)
    | (Script.Exited status, out) => (status, out)
    | (Script.Raised _, out) => (1%nat, out)
    end.
Proof.
  intros H. unfold Script.run, Script.main. rewrite H. reflexivity.
Qed.

Lemma run_bad_email (secret prog email tier : str) (rest : list str) :
  Script.help_requested (prog :: email :: tier :: rest) = false ->
  ~ (In 0x40 email /\ In 0x2E email) ->
  fst (Script.run secret (prog :: email :: tier :: rest)) = 1%nat
  /\ (encodable email = true ->
      Script.run secret (prog :: email :: tier :: rest)
      = (1%nat,
         Script.unlines [lit "Error: Invalid email format: " ++ email])).
Proof.
  intros H Hn. rewrite run_three by assumption.
  assert (negb (Script.contains_char 0x40 email)
          || negb (Script.contains_char 0x2E email) = true) as ->.
  { destruct (Script.contains_char 0x40 email) eqn:E1; [|reflexivity].
    destruct (Script.contains_char 0x2E email) eqn:E2; [|reflexivity].
    apply contains_char_In in E1, E2. tauto. }
  unfold Script.bind, Script.sys_exit.
  destruct (print_cases (lit "Error: Invalid email format: " ++ email) [])
    as [E | (i & j & E)]; rewrite E.
  - split; [reflexivity|]. intros _.
    cbn [Script.unlines flat_map]. rewrite app_nil_r. reflexivity.
  - split; [reflexivity|]. intros He.
    rewrite print_ok in E by (rewrite encodable_app, He; reflexivity).
    discriminate E.
Qed.

Lemma run_generated (secret prog email tier key : str) (rest : list str) :
  In 0x40 email -> In 0x2E email ->
  generate_license secret email tier = Return key ->
  Script.run secret (prog :: email :: tier :: rest)
  = (O, Script.unlines (Script.success_lines email tier (lower tier) key)).
Proof.
  intros H1 H2 Hg.
  assert (Script.help_requested (prog :: email :: tier :: rest) = false) as Hh.
  { destruct (Script.help_requested _) eqn:E; [|reflexivity].
    apply help_requested_spec in E as (p & a & r & [= _ <- _] & Ha).
    now apply help_flag_no_at in Ha. }
  rewrite run_three by assumption.
  apply contains_char_In in H1, H2. rewrite H1, H2. cbn [negb orb].
  unfold Script.bind, Script.ret, Script.try_except2.
  now rewrite (main_try_success _ _ _ _ [] Hg).
Qed.

Lemma main_try_raise (secret email tier : str) (e : exn) (out : str) :
  generate_license secret email tier = Raise e ->
  Script.main_try secret email tier out = (Script.Raised e, out).
Proof.
  intros Hg. unfold Script.main_try. unfold Script.bind at 1.
  now rewrite Hg.
Qed.

Lemma bind_ret {A B : Type} (a : A) (k : A -> Script.IO B) (out : str) :
  Script.bind (Script.ret a) k out = k a out.
Proof. reflexivity. Qed.

Lemma try_except2_raised {A : Type} (body : Script.IO A)
      (h1 h2 : exn -> Script.IO A) (e : exn) (out out' : str) :
  body out = (Script.Raised e, out') ->
  Script.is_ValueError e = true ->
  Script.try_except2 body h1 h2 out = h1 e out'.
Proof. intros Hb He. unfold Script.try_except2. now rewrite Hb, He. Qed.

Lemma run_not_generated (secret prog email tier : str) (rest : list str)
      (e : exn) :
  Script.help_requested (prog :: email :: tier :: rest) = false ->
  In 0x40 email -> In 0x2E email ->
  generate_license secret email tier = Raise e ->
  fst (Script.run secret (prog :: email :: tier :: rest)) = 1%nat
  /\ (encodable (str_of_exn e) = true ->
      Script.run secret (prog :: email :: tier :: rest)
      = (1%nat, Script.unlines [lit "Error: " ++ str_of_exn e])).
Proof.
  intros Hh H1 H2 Hg. rewrite run_three by assumption.
  apply contains_char_In in H1, H2. rewrite H1, H2. cbn [negb orb].
  rewrite bind_ret.
  rewrite (try_except2_raised _ _ _ _ _ _ (main_try_raise _ _ _ _ [] Hg)
             (generate_license_raises _ _ _ _ Hg)).
  unfold Script.bind, Script.sys_exit.
  destruct (print_cases (lit "Error: " ++ str_of_exn e) [])
    as [E | (i & j & E)]; rewrite E.
  - split; [reflexivity|]. intros _.
    cbn [Script.unlines flat_map]. rewrite app_nil_r. reflexivity.
  - split; [reflexivity|]. intros He.
    rewrite print_ok in E by (rewrite encodable_app, He; reflexivity).
    discriminate E.
Qed.

Lemma generated_inputs_encodable (secret email tier key : str) :
  generate_license secret email tier = Return key ->
  encodable (email ++ secret) = true.
Proof.
  intros Hg. pose proof (generate_license_returns_inv _ _ _ _ Hg) as Ht.
  destruct (proj1 (tiers_codes _) Ht) as [code Hin].
  rewrite (generate_license_known _ _ _ _ Hin), hash_part_of_digest_part in Hg.
  destruct (encode_utf8 _) as [b|] eqn:E; [|discriminate Hg].
  apply encode_utf8_returns_inv in E. rewrite !encodable_app in *.
  apply andb_true_iff in E as [-> E]. apply andb_true_iff in E as [_ E].
  apply andb_true_iff in E as [_ E]. now apply andb_true_iff in E as [_ ->].
Qed.

Lemma generate_license_returns (secret email tier : str) :
  In (lower tier) tiers -> encodable (email ++ secret) = true ->
  exists key, generate_license secret email tier = Return key.
Proof.
  intros Ht He. destruct (proj1 (tiers_codes _) Ht) as [code Hin].
  rewrite (generate_license_known _ _ _ _ Hin).
  destruct (hash_part_of_returns secret email (lower tier)) as [h ->].
  - rewrite !encodable_app in *. apply andb_true_iff in He as [-> ->].
    destruct Ht as [<- | [<- | [<- | []]]]; reflexivity.
  - cbn [bind]. eauto.
Qed.

(** X12 (exit status of the script).  The script ends with status 0 or 1.
    It ends with 0 exactly when the first argument is one of -h, --help and
    help, or when there are at least two arguments, the first holding both
    an at sign and a dot and free, like the secret, of lone surrogates, and
    the second a tier that lowercases to pro, team or enterprise. *)
Theorem script_exit_status (secret : str) (argv : list str) :
  (fst (Script.run secret argv) = 0%nat \/ fst (Script.run secret argv) = 1%nat)
  /\ (fst (Script.run secret argv) = 0%nat
      <-> (exists prog a rest,
              argv = prog :: a :: rest /\ In a Script.help_flags)
          \/ (exists prog email tier rest,
                 argv = prog :: email :: tier :: rest
                 /\ In 0x40 email /\ In 0x2E email
                 /\ In (lower tier) tiers
                 /\ encodable (email ++ secret) = true)).
Proof.
  assert (forall P : Prop, ~ P ->
            fst (Script.run secret argv) = 1%nat ->
            (fst (Script.run secret argv) = 0%nat
             \/ fst (Script.run secret argv) = 1%nat)
            /\ (fst (Script.run secret argv) = 0%nat <-> P)) as Hone.
  { intros P Hn E. rewrite E. split; [auto|]. split; [discriminate | tauto]. }
  destruct (Script.help_requested argv) eqn:Hh.
  { rewrite (run_help secret argv Hh). cbn [fst]. split; [auto|].
    split; [|reflexivity]. intros _. left. now apply help_requested_spec. }
  assert (~ exists prog a rest,
              argv = prog :: a :: rest /\ In a Script.help_flags) as Hnh.
  { intros H. apply help_requested_spec in H. congruence. }
  destruct argv as [|prog [|email [|tier rest]]].
  1-3: apply Hone;
    [ intros [H | (p & e & t & r & E & _)]; [tauto | discriminate E]
    | rewrite run_missing by (assumption || (cbn; lia)); reflexivity ].
  destruct (in_dec N.eq_dec 0x40 email) as [H1 | H1].
  2:{ apply Hone.
      - intros [H | (p & e & t & r & [= _ <- _ _] & H & _)]; tauto.
      - apply run_bad_email; tauto. }
  destruct (in_dec N.eq_dec 0x2E email) as [H2 | H2].
  2:{ apply Hone.
      - intros [H | (p & e & t & r & [= _ <- _ _] & _ & H & _)]; tauto.
      - apply run_bad_email; tauto. }
  destruct (generate_license secret email tier) as [key | e] eqn:Hg.
  - rewrite (run_generated secret prog email tier key rest H1 H2 Hg).
    cbn [fst]. split; [auto|]. split; [|reflexivity]. intros _. right.
    exists prog, email, tier, rest. repeat split; auto.
    + eapply generate_license_returns_inv; eassumption.
    + eapply generated_inputs_encodable; eassumption.
  - apply Hone.
    + intros [H | (p & em & t & r & [= _ <- <- _] & _ & _ & Ht & He)];
        [tauto|].
      destruct (generate_license_returns secret email tier Ht He) as [key Hk].
      congruence.
    + eapply run_not_generated; eassumption.
Qed.

(** X13 (usage).  With -h, --help or help as first argument, whatever
    follows, the script writes the usage text and ends with status 0; with
    fewer than two arguments otherwise it writes the missing-arguments error,
    an empty line and the usage text, and ends with status 1. *)
Theorem script_usage (secret : str) (argv : list str) :
  ((exists prog a rest, argv = prog :: a :: rest /\ In a Script.help_flags) ->
   Script.run secret argv = (O, Script.unlines Script.usage_lines))
  /\ ((length argv < 3)%nat ->
      ~ (exists prog a rest,
            argv = prog :: a :: rest /\ In a Script.help_flags) ->
      Script.run secret argv
      = (1%nat,
         Script.unlines
           ([lit "Error: Missing required arguments"; []]
            ++ Script.usage_lines))).
Proof.
  split.
  - intros H. apply run_help. now apply help_requested_spec.
  - intros Hl Hn. apply run_missing; [|exact Hl].
    destruct (Script.help_requested argv) eqn:E; [|reflexivity].
    apply help_requested_spec in E. contradiction.
Qed.



(** X15 (the try block raises value errors only).  Whatever the email and
    the tier, an exception leaving the [try] block of [main] is a
    [ValueError] or one of its subclasses: the handler that writes
    "Unexpected error" is never entered. *)
Theorem main_try_value_errors_only (secret email tier out out' : str)
        (e : exn) :
  Script.main_try secret email tier out = (Script.Raised e, out') ->
  Script.is_ValueError e = true.
Proof.
  destruct (generate_license secret email tier) as [key | e0] eqn:Hg.
  - rewrite (main_try_success _ _ _ _ out Hg). discriminate.
  - rewrite (main_try_raise _ _ _ _ out Hg). intros [= <- _].
    eapply generate_license_raises; eassumption.
Qed.

Lemma main_try_value_errors_only_witness :
  Script.is_ValueError (InvalidTier (lit "gold")) = true.
Proof.
  apply (main_try_value_errors_only SECRET_KEY (lit "a@b.com") (lit "gold")
           [] []).
  vm_compute. reflexivity.
Defined.







